(** * The evolutionary cycle engine of [simulation.py]

    A shallow embedding of [run_evolutionary_cycle] and of the objects it
    works on, followed by the properties of the engine.

    Modelling choices.
    - [Agent] objects live in a store ([list Agent], indexed by the
      allocation order); the Python list [agents] is a list of references
      into that store.  [safe_agents], [risky_agents] and the slices that
      make the pairs hold the same references, so a field assignment through
      any of them is an update of the store.
    - Numbers.  The constants of the module and the fines [main] passes are
      Python ints, on which the arithmetic of the engine is exact; the cycle
      is modelled on rationals ([Q]), which hold these numbers exactly.  The
      payoff rule is also given on Python numbers proper, ints and binary64
      floats (module [Py]): there a float argument makes every operation
      round to the nearest float, and on ints the two rules agree.
    - The process-wide generator of the [random] module is an explicit
      handle [rng], threaded through every call that draws from it.  The
      handle reads successive words of an arbitrary source, so a statement
      for all handles covers every sequence of outcomes.
    - The two module constants that size the run ([POPULATION_SIZE],
      [ROUNDS_PER_SIM]) are read through parameters of the [_with]
      functions; the functions named as in the source fix them to the
      module's values. *)

From Stdlib Require Import ZArith QArith String Lia Lqa SpecFloat.
From stdpp Require Import base list numbers.

Local Open Scope Z_scope.

(** ** Configuration *)

Definition POPULATION_SIZE : Z := 1000.
Definition ROUNDS_PER_SIM : Z := 50.
Definition SIMULATION_RUNS : Z := 5.

Definition PROFIT : Q := 100.
Definition COST_SAFE : Q := 20.

Definition LLC_FINE : Q := 30.
Definition LLC_REPUTATION_LOSS : Q := 10.
Definition PARTNERSHIP_FINE : Q := 100.
Definition PARTNERSHIP_REPUTATION_LOSS : Q := 100.

(** [0.1]: a draw [k / 2^53] is below the double nearest to one tenth
    exactly when it is below one tenth, so the rational is used. *)
Definition LEARNING_RATE : Q := 1 # 10.

(** ** The agent *)

(** [strategy]: 1 = Safe, 0 = Risky. *)
Record Agent := mkAgent { strategy : Z; wealth : Q }.

(** [Agent(strategy=s)] *)
Definition new_Agent (s : Z) : Agent := mkAgent s 0.

#[global] Instance Agent_inhabited : Inhabited Agent := populate (new_Agent 0).

(** Field assignments [a.wealth = w], [a.wealth += p], [a.strategy = s]. *)
Definition set_wealth (w : Q) (a : Agent) : Agent := mkAgent (strategy a) w.
Definition add_wealth (p : Q) (a : Agent) : Agent :=
  mkAgent (strategy a) (wealth a + p)%Q.
Definition set_strategy (s : Z) (a : Agent) : Agent := mkAgent s (wealth a).

(** ** The random source *)

Record rng := mkRng { source : N -> N; position : N }.

Definition next_word (g : rng) : N * rng :=
  (source g (position g), mkRng (source g) (N.succ (position g))).

(** [random.random()]: a multiple of [2^-53] in the interval [0, 1). *)
Definition random (g : rng) : Q * rng :=
  let '(w, g') := next_word g in
  (Z.of_N (w mod 2 ^ 53) # 2 ^ 53, g').

(** [random._randbelow(n)]: an index below [n].  One word of the source
    stands for the outcome of one call. *)
Definition randbelow (n : nat) (g : rng) : nat * rng :=
  let '(w, g') := next_word g in
  (N.to_nat (w mod N.of_nat n), g').

(** [x < y] on floats. *)
Definition Qltb (x y : Q) : bool := negb (Qle_bool y x).

(** ** List operations of the engine *)

Section Lists.
Context {A : Type}.

(** [x[i], x[j] = x[j], x[i]] *)
Definition swap (i j : nat) (x : list A) : list A :=
  match x !! i, x !! j with
  | Some xi, Some xj => <[j := xi]> (<[i := xj]> x)
  | _, _ => x
  end.

(** The loop of [random.shuffle]: [i] runs from [len(x) - 1] down to 1. *)
Fixpoint shuffle_loop (i : nat) (x : list A) (g : rng) : list A * rng :=
  match i with
  | O => (x, g)
  | S i' =>
      let '(j, g') := randbelow (S i) g in
      shuffle_loop i' (swap i j x) g'
  end.

Definition shuffle (x : list A) (g : rng) : list A * rng :=
  shuffle_loop (length x - 1) x g.

(** [x[0::2]] *)
Fixpoint every_other (x : list A) : list A :=
  match x with
  | [] => []
  | [a] => [a]
  | a :: _ :: x' => a :: every_other x'
  end.

(** [x[start::2]] *)
Definition slice2 (start : nat) (x : list A) : list A :=
  every_other (drop start x).
End Lists.

(** [np.mean] of a non-empty list. *)
Definition Qsum (l : list Q) : Q := foldr Qplus 0%Q l.
Definition mean (l : list Q) : Q := (Qsum l / inject_Z (Z.of_nat (length l)))%Q.

(** ** The engine *)

Inductive exn := ZeroDivisionError.

Inductive result (A : Type) :=
| Return (a : A)
| Raise (e : exn).
Arguments Return {A} a.
Arguments Raise {A} e.

Definition is_partnership (liability_model : string) : bool :=
  String.eqb liability_model "Partnership".

(** Base payoffs and fines of one pair (lines 69-91), on rationals. *)
Definition pair_payoffs (is_audited : bool) (strategy_A strategy_B : Z)
    (fine_amount reputation_loss : Q) (liability_model : string) : Q * Q :=
  let payoff_A := PROFIT in
  let payoff_B := PROFIT in
  let payoff_A := if strategy_A =? 1 then (payoff_A - COST_SAFE)%Q else payoff_A in
  let payoff_B := if strategy_B =? 1 then (payoff_B - COST_SAFE)%Q else payoff_B in
  if is_audited then
    let '(payoff_A, payoff_B) :=
      if strategy_A =? 0 then
        let payoff_A := (payoff_A - (fine_amount + reputation_loss))%Q in
        if is_partnership liability_model
        then (payoff_A, (payoff_B - (fine_amount + reputation_loss))%Q)
        else (payoff_A, payoff_B)
      else (payoff_A, payoff_B) in
    if strategy_B =? 0 then
      let payoff_B := (payoff_B - (fine_amount + reputation_loss))%Q in
      if is_partnership liability_model
      then ((payoff_A - (fine_amount + reputation_loss))%Q, payoff_B)
      else (payoff_A, payoff_B)
    else (payoff_A, payoff_B)
  else (payoff_A, payoff_B).

Section Engine.
Variables (audit_prob fine_amount reputation_loss : Q).
Variable liability_model : string.

(** The body of the loop over the pairs (lines 67-94). *)
Definition play_pair (h : list Agent) (g : rng) (ab : nat * nat)
    : list Agent * rng :=
  let '(agent_A, agent_B) := ab in
  let '(u, g) := random g in
  let is_audited := Qltb u audit_prob in
  let '(payoff_A, payoff_B) :=
    pair_payoffs is_audited (strategy (h !!! agent_A)) (strategy (h !!! agent_B))
      fine_amount reputation_loss liability_model in
  let h := alter (add_wealth payoff_A) agent_A h in
  let h := alter (add_wealth payoff_B) agent_B h in
  (h, g).

Fixpoint play_pairs (pairs : list (nat * nat)) (h : list Agent) (g : rng)
    : list Agent * rng :=
  match pairs with
  | [] => (h, g)
  | ab :: pairs' =>
      let '(h', g') := play_pair h g ab in
      play_pairs pairs' h' g'
  end.
End Engine.

(** [for agent in agents: agent.wealth = 0] *)
Fixpoint reset_wealth (agents : list nat) (h : list Agent) : list Agent :=
  match agents with
  | [] => h
  | agent :: agents' => reset_wealth agents' (alter (set_wealth 0) agent h)
  end.

(** [for agent in group: if random.random() < LEARNING_RATE: agent.strategy = s] *)
Fixpoint switch_loop (s : Z) (group : list nat) (h : list Agent) (g : rng)
    : list Agent * rng :=
  match group with
  | [] => (h, g)
  | agent :: group' =>
      let '(u, g') := random g in
      let h' := if Qltb u LEARNING_RATE then alter (set_strategy s) agent h else h in
      switch_loop s group' h' g'
  end.

Definition with_strategy (s : Z) (h : list Agent) (agents : list nat) : list nat :=
  filter (λ a, strategy (h !!! a) = s) agents.

Definition wealths (h : list Agent) (group : list nat) : list Q :=
  (λ a, wealth (h !!! a)) <$> group.

(** [np.mean([a.wealth for a in group]) if group else 0] *)
Definition avg_wealth (h : list Agent) (group : list nat) : Q :=
  match group with
  | [] => 0%Q
  | _ :: _ => mean (wealths h group)
  end.

(** The social learning step (lines 97-112). *)
Definition evolve (agents : list nat) (h : list Agent) (g : rng)
    : list Agent * rng :=
  let safe_agents := with_strategy 1 h agents in
  let risky_agents := with_strategy 0 h agents in
  let avg_safe_wealth := avg_wealth h safe_agents in
  let avg_risky_wealth := avg_wealth h risky_agents in
  if Qltb avg_safe_wealth avg_risky_wealth then
    switch_loop 0 safe_agents h g
  else if Qltb avg_risky_wealth avg_safe_wealth then
    switch_loop 1 risky_agents h g
  else (h, g).

(** [zip(agents[0::2], agents[1::2])] *)
Definition pairing (agents : list nat) : list (nat * nat) :=
  zip (slice2 0 agents) (slice2 1 agents).

(** The state a cycle works on: the store, the list [agents], the generator. *)
Record world := mkWorld { heap : list Agent; agents : list nat; gen : rng }.

Section Cycle.
Variables (audit_prob fine_amount reputation_loss : Q).
Variable liability_model : string.

(** The pairing and playing part of a round (lines 63-94). *)
Definition play (w : world) : world :=
  let '(agents, g) := shuffle (agents w) (gen w) in
  let pairs := pairing agents in
  let '(h, g) :=
    play_pairs audit_prob fine_amount reputation_loss liability_model
      pairs (heap w) g in
  mkWorld h agents g.

Definition reset (w : world) : world :=
  mkWorld (reset_wealth (agents w) (heap w)) (agents w) (gen w).

Definition learn (w : world) : world :=
  let '(h, g) := evolve (agents w) (heap w) (gen w) in
  mkWorld h (agents w) g.

(** One iteration of the loop over the rounds (lines 58-112). *)
Definition round (w : world) : world := learn (play (reset w)).

Fixpoint rounds (n : nat) (w : world) : world :=
  match n with
  | O => w
  | S n' => rounds n' (round w)
  end.
End Cycle.

(** Population construction and the first shuffle (lines 51-54): the
    [population_size // 2] Safe agents are allocated first, then as many
    Risky ones. *)
Definition initial_heap (population_size : Z) : list Agent :=
  replicate (Z.to_nat (population_size / 2)) (new_Agent 1)
  ++ replicate (Z.to_nat (population_size / 2)) (new_Agent 0).

Definition initialize (population_size : Z) (g : rng) : world :=
  let h := initial_heap population_size in
  let '(agents, g) := shuffle (seq 0 (length h)) g in
  mkWorld h agents g.

(** [sum(a.strategy for a in agents) / POPULATION_SIZE] (line 115) *)
Definition strategy_sum (h : list Agent) (agents : list nat) : Z :=
  foldl (λ acc a, acc + strategy (h !!! a)) 0 agents.

Definition safe_fraction (population_size : Z) (w : world) : result Q :=
  if population_size =? 0 then Raise ZeroDivisionError
  else Return (inject_Z (strategy_sum (heap w) (agents w))
               / inject_Z population_size)%Q.

Section Run.
Variables (population_size rounds_per_sim : Z).
Variables (audit_prob fine_amount reputation_loss : Q).
Variable liability_model : string.

(** The world after the last round. *)
Definition final_world (g : rng) : world :=
  rounds audit_prob fine_amount reputation_loss liability_model
    (Z.to_nat rounds_per_sim) (initialize population_size g).

Definition run_evolutionary_cycle_with (g : rng) : result Q * rng :=
  let w := final_world g in
  (safe_fraction population_size w, gen w).
End Run.

Definition run_evolutionary_cycle := run_evolutionary_cycle_with POPULATION_SIZE ROUNDS_PER_SIM.

(** The two calls of [main] (lines 134-139 and 148-153). *)
Definition llc_run (p : Q) (g : rng) : result Q * rng :=
  run_evolutionary_cycle p LLC_FINE LLC_REPUTATION_LOSS "LLC" g.

Definition partnership_run (p : Q) (g : rng) : result Q * rng :=
  run_evolutionary_cycle p PARTNERSHIP_FINE PARTNERSHIP_REPUTATION_LOSS "Partnership" g.

(** ** The sweep of [main]

    The numbers [main] computes (lines 120-156); printing and plotting are
    left out.  An exception of a cycle ends the sweep. *)

(** [np.linspace(start, stop, num)] *)
Definition linspace (start stop : Q) (num : nat) : list Q :=
  (λ i, start + inject_Z (Z.of_nat i)
                * ((stop - start) / inject_Z (Z.of_nat (num - 1))))%Q <$> seq 0 num.

Definition audit_probabilities : list Q := linspace 0 1 20.

(** [[cycle() for _ in range(k)]] *)
Fixpoint repeat_cycle (k : nat) (cycle : rng -> result Q * rng) (g : rng)
    : result (list Q) * rng :=
  match k with
  | O => (Return [], g)
  | S k' =>
      match cycle g with
      | (Raise e, g') => (Raise e, g')
      | (Return q, g') =>
          match repeat_cycle k' cycle g' with
          | (Raise e, g'') => (Raise e, g'')
          | (Return qs, g'') => (Return (q :: qs), g'')
          end
      end
  end.

(** The body of the loop over the audit probabilities: the two averages of
    one grid point. *)
Definition sweep_point (p : Q) (g : rng) : result (Q * Q) * rng :=
  match repeat_cycle (Z.to_nat SIMULATION_RUNS) (llc_run p) g with
  | (Raise e, g') => (Raise e, g')
  | (Return llc, g') =>
      let avg_safe_llc := mean llc in
      match repeat_cycle (Z.to_nat SIMULATION_RUNS) (partnership_run p) g' with
      | (Raise e, g'') => (Raise e, g'')
      | (Return partnership, g'') =>
          let avg_safe_partnership := mean partnership in
          (Return (avg_safe_llc, avg_safe_partnership), g'')
      end
  end.

Fixpoint sweep (ps : list Q) (results_llc results_partnership : list Q) (g : rng)
    : result (list Q * list Q) * rng :=
  match ps with
  | [] => (Return (results_llc, results_partnership), g)
  | p :: ps' =>
      match sweep_point p g with
      | (Raise e, g') => (Raise e, g')
      | (Return (avg_safe_llc, avg_safe_partnership), g') =>
          sweep ps' (results_llc ++ [avg_safe_llc])
            (results_partnership ++ [avg_safe_partnership]) g'
      end
  end.

Definition main_results (g : rng) : result (list Q * list Q) * rng :=
  sweep audit_probabilities [] [] g.

(** A generator for the examples. *)
Definition lcg (seed : N) : rng :=
  mkRng (λ i, (i * 6364136223846793005 + seed * 1442695040888963407 + 7046029254386353087) mod 2 ^ 64 / 2 ^ 11)%N 0.

(** ** The payoff rule on Python numbers

    [fine_amount] and [reputation_loss] are Python numbers: [main] passes
    ints, the signature announces floats.  On ints the arithmetic of lines
    69-91 is exact, and the rational rule [pair_payoffs] above computes the
    same numbers; on floats every operation rounds to the nearest binary64
    value.  This module has the rule on both. *)

Module Py.

(** An [int] or a [float] (binary64). *)
Inductive number :=
| Int (z : Z)
| Float (x : spec_float).

(** The outcome of an arithmetic operation: a value, or the [OverflowError]
    of an int too large to convert to float. *)
Inductive arith (A : Type) :=
| Value (a : A)
| OverflowError.
Arguments Value {A} a.
Arguments OverflowError {A}.

#[global] Instance arith_bind : MBind arith := fun A B k c =>
  match c with
  | Value a => k a
  | OverflowError => OverflowError
  end.

Definition prec : Z := 53.
Definition emax : Z := 1024.

(** [float(z)]: the nearest binary64 value, ties to even. *)
Definition float_of_int (z : Z) : arith spec_float :=
  match binary_normalize prec emax z 0 false with
  | S754_infinity _ => OverflowError
  | x => Value x
  end.

Definition to_float (a : number) : arith spec_float :=
  match a with
  | Int z => float_of_int z
  | Float x => Value x
  end.

(** [a + b] *)
Definition add (a b : number) : arith number :=
  match a, b with
  | Int x, Int y => Value (Int (x + y))
  | _, _ =>
      x ← to_float a;
      y ← to_float b;
      Value (Float (SFadd prec emax x y))
  end.

(** [a - b] *)
Definition sub (a b : number) : arith number :=
  match a, b with
  | Int x, Int y => Value (Int (x - y))
  | _, _ =>
      x ← to_float a;
      y ← to_float b;
      Value (Float (SFsub prec emax x y))
  end.

Definition PROFIT : number := Int 100.
Definition COST_SAFE : number := Int 20.

(** [payoff -= (fine_amount + reputation_loss)] *)
Definition fined (payoff fine_amount reputation_loss : number) : arith number :=
  penalty ← add fine_amount reputation_loss;
  sub payoff penalty.

(** Lines 69-91. *)
Definition pair_payoffs (is_audited : bool) (strategy_A strategy_B : Z)
    (fine_amount reputation_loss : number) (liability_model : string)
    : arith (number * number) :=
  let payoff_A := PROFIT in
  let payoff_B := PROFIT in
  payoff_A ← (if strategy_A =? 1 then sub payoff_A COST_SAFE else Value payoff_A);
  payoff_B ← (if strategy_B =? 1 then sub payoff_B COST_SAFE else Value payoff_B);
  if is_audited then
    AB ← (if strategy_A =? 0 then
             payoff_A ← fined payoff_A fine_amount reputation_loss;
             if is_partnership liability_model then
               payoff_B ← fined payoff_B fine_amount reputation_loss;
               Value (payoff_A, payoff_B)
             else Value (payoff_A, payoff_B)
           else Value (payoff_A, payoff_B));
    let payoff_A := fst AB in
    let payoff_B := snd AB in
    if strategy_B =? 0 then
      payoff_B ← fined payoff_B fine_amount reputation_loss;
      if is_partnership liability_model then
        payoff_A ← fined payoff_A fine_amount reputation_loss;
        Value (payoff_A, payoff_B)
      else Value (payoff_A, payoff_B)
    else Value (payoff_A, payoff_B)
  else Value (payoff_A, payoff_B).

(** The real number a Python number stands for; none for an infinity or a
    NaN. *)
Definition float_value (x : spec_float) : option Q :=
  match x with
  | S754_zero _ => Some 0%Q
  | S754_finite s m e =>
      Some (Qred ((if s then - inject_Z (Z.pos m) else inject_Z (Z.pos m))
                  * Qpower 2 e))%Q
  | _ => None
  end.

Definition value (a : number) : option Q :=
  match a with
  | Int z => Some (inject_Z z)
  | Float x => float_value x
  end.

End Py.

(** A fine is an addition and a subtraction; simplification keeps it folded. *)
Arguments Py.fined : simpl never.

(** Some binary64 values: 100.0, 80.0, 0.0, 1e-20, 0.1. *)
Definition float_100 : spec_float := S754_finite false 7036874417766400 (-46).
Definition float_80 : spec_float := S754_finite false 5629499534213120 (-46).
Definition float_0 : spec_float := S754_zero false.
Definition float_1e_20 : spec_float := S754_finite false 6646139978924579 (-119).
Definition float_0_1 : spec_float := S754_finite false 7205759403792794 (-56).

(** The payoff of a member with strategy [mine] whose partner has strategy
    [other], for an integer fine and reputation loss, as a formula. *)
Definition payoff_formula_int (is_audited : bool) (mine other : Z)
    (fine_amount reputation_loss : Z) (liability_model : string) : Z :=
  100
  - (if mine =? 1 then 20 else 0)
  - (if is_audited then
       (fine_amount + reputation_loss)
       * ((if mine =? 0 then 1 else 0)
          + (if is_partnership liability_model && (other =? 0) then 1 else 0))
     else 0).

(** ** Vocabulary of the statements *)

(** The generator after [k] more words have been read, and the value the
    [k]-th next call of [random.random()] returns. *)
Definition advance (k : nat) (g : rng) : rng :=
  mkRng (source g) (position g + N.of_nat k).

Definition draw (k : nat) (g : rng) : Q := (random (advance k g)).1.

(** A generator whose words are all zero, and a world of two Risky agents. *)
Definition zero_rng : rng := mkRng (λ _, 0%N) 0.

Definition two_risky : world :=
  mkWorld [new_Agent 0; new_Agent 0] [0%nat; 1%nat] zero_rng.

(** The generator [g] reads the words [ws] next, and a generator that
    reads [ws] from its start. *)
Definition reads (ws : list N) (g : rng) : Prop :=
  forall k w, ws !! k = Some w -> source g (position g + N.of_nat k) = w.

Definition scripted (ws : list N) : rng :=
  mkRng (λ i, default 0%N (ws !! N.to_nat i)) 0.

(** The agents of a list of pairs, in the order of the pairs. *)
Definition members (pairs : list (nat * nat)) : list nat :=
  pairs ≫= λ ab, [ab.1; ab.2].

Definition binary (a : Agent) : Prop := strategy a = 0 \/ strategy a = 1.

(** A world of [2 * k] agents: the list [agents] holds every reference into
    the store once, and every strategy is 0 or 1. *)
Definition well_formed (k : nat) (w : world) : Prop :=
  length (heap w) = (2 * k)%nat
  /\ agents w ≡ₚ seq 0 (2 * k)
  /\ Forall binary (heap w).

(** The worlds one round goes through, from the world [w] it starts in. *)
Definition phases (p f r : Q) (m : string) (w : world) : list world :=
  [w; reset w; play p f r m (reset w); round p f r m w].

(** Every agent of the list has the strategy [s]. *)
Definition all_strategy (s : Z) (w : world) : Prop :=
  forall a, a ∈ agents w -> strategy (heap w !!! a) = s.

(** The number of Safe agents of a world. *)
Definition safe_count (w : world) : nat :=
  length (with_strategy 1 (heap w) (agents w)).

(** What the [k]-th agent of a group becomes in the switching loop: the
    agent's own draw decides. *)
Definition decided (k : nat) (s : Z) (g : rng) : Agent -> Agent :=
  if Qltb (draw k g) LEARNING_RATE then set_strategy s else id.

Local Close Scope Z_scope.

(** ** The engine on small inputs *)

Example pairing_even : pairing [3; 1; 4; 5; 2; 0] = [(3, 1); (4, 5); (2, 0)].
Proof. reflexivity. Qed.

Example pairing_odd : pairing [3; 1; 4] = [(3, 1)].
Proof. reflexivity. Qed.

Example shuffle_six : (shuffle [0; 1; 2; 3; 4; 5] (lcg 1)).1 = [1; 4; 3; 0; 5; 2].
Proof. vm_compute. reflexivity. Qed.

Example shuffle_scripted :
  (shuffle [10; 20; 30] (scripted [0%N; 0%N])).1 = [20; 30; 10].
Proof. reflexivity. Qed.

Example payoffs_llc_audited :
  pair_payoffs true 0 1 LLC_FINE LLC_REPUTATION_LOSS "LLC"
  = ((100 - (30 + 10))%Q, (100 - 20)%Q).
Proof. reflexivity. Qed.

Example payoffs_not_audited :
  pair_payoffs false 0 1 PARTNERSHIP_FINE PARTNERSHIP_REPUTATION_LOSS "Partnership"
  = (100%Q, (100 - 20)%Q).
Proof. reflexivity. Qed.

Example small_cycle :
  (run_evolutionary_cycle_with 6 3 (1 # 2) 100 100 "Partnership" (lcg 1)).1
  = Return (2 # 6).
Proof. vm_compute. reflexivity. Qed.

Example empty_population_divides_by_zero :
  (run_evolutionary_cycle_with 0 3 (1 # 2) 100 100 "Partnership" (lcg 1)).1
  = Raise ZeroDivisionError.
Proof. reflexivity. Qed.

(** ** The payoff rule *)

Lemma play_pair_unfold p f r m h g a b :
  play_pair p f r m h g (a, b) =
    let is_audited := Qltb (random g).1 p in
    let pay := pair_payoffs is_audited (strategy (h !!! a)) (strategy (h !!! b)) f r m in
    (alter (add_wealth pay.2) b (alter (add_wealth pay.1) a h), (random g).2).
Proof.
  unfold play_pair. destruct (random g) as [u g']. simpl.
  by destruct (pair_payoffs _ _ _ _ _ _).
Qed.

Lemma play_pair_wealth_B p f r m h g a b :
  b < length h ->
  a <> b ->
  wealth ((play_pair p f r m h g (a, b)).1 !!! b) =
    (wealth (h !!! b)
     + (pair_payoffs (Qltb (random g).1 p) (strategy (h !!! a)) (strategy (h !!! b)) f r m).2)%Q.
Proof.
  intros Hb Hab. rewrite play_pair_unfold. cbn zeta. cbn [fst].
  rewrite list_lookup_total_alter_eq.
  - by rewrite list_lookup_total_alter_ne.
  - by rewrite length_alter.
Qed.

Lemma play_pair_wealth_A p f r m h g a b :
  a < length h ->
  a <> b ->
  wealth ((play_pair p f r m h g (a, b)).1 !!! a) =
    (wealth (h !!! a)
     + (pair_payoffs (Qltb (random g).1 p) (strategy (h !!! a)) (strategy (h !!! b)) f r m).1)%Q.
Proof.
  intros Ha Hab. rewrite play_pair_unfold. cbn zeta. cbn [fst].
  rewrite list_lookup_total_alter_ne by congruence.
  by rewrite list_lookup_total_alter_eq.
Qed.

(** C3, as the code has it: one audited pair, A Risky and B Safe.  With the
    model "Individual" B's payoff is [PROFIT - COST_SAFE], the int 80,
    whatever A is fined.  With "Partnership" it is that 80 with
    [fine_amount + reputation_loss] subtracted in the arithmetic of the
    arguments: for ints exactly [PROFIT - COST_SAFE - (fine_amount +
    reputation_loss)], which is [fine_amount + reputation_loss] less; for
    floats the binary64 difference of 80.0 and the binary64 sum. *)
Theorem liability_asymmetry (fine rep : Py.number) (f r : Z) (x y : spec_float) :
  Py.sub Py.PROFIT Py.COST_SAFE = Py.Value (Py.Int 80)
  /\ Py.pair_payoffs true 0 1 fine rep "Individual"
     = (A ← Py.fined Py.PROFIT fine rep; Py.Value (A, Py.Int 80))
  /\ Py.pair_payoffs true 0 1 fine rep "Partnership"
     = (A ← Py.fined Py.PROFIT fine rep;
        B ← Py.fined (Py.Int 80) fine rep;
        Py.Value (A, B))
  /\ Py.pair_payoffs true 0 1 (Py.Int f) (Py.Int r) "Individual"
     = Py.Value (Py.Int (100 - (f + r)), Py.Int (100 - 20))
  /\ Py.pair_payoffs true 0 1 (Py.Int f) (Py.Int r) "Partnership"
     = Py.Value (Py.Int (100 - (f + r)), Py.Int (100 - 20 - (f + r)))
  /\ Py.pair_payoffs true 0 1 (Py.Float x) (Py.Float y) "Individual"
     = Py.Value (Py.Float (SFsub 53 1024 float_100 (SFadd 53 1024 x y)), Py.Int 80)
  /\ Py.pair_payoffs true 0 1 (Py.Float x) (Py.Float y) "Partnership"
     = Py.Value (Py.Float (SFsub 53 1024 float_100 (SFadd 53 1024 x y)),
                 Py.Float (SFsub 53 1024 float_80 (SFadd 53 1024 x y))).
Proof.
  split; [reflexivity|]. split; [|split].
  - unfold Py.pair_payoffs. cbn.
    destruct (Py.fined Py.PROFIT fine rep); reflexivity.
  - unfold Py.pair_payoffs. cbn. change (100 - 20)%Z with 80%Z.
    destruct (Py.fined Py.PROFIT fine rep); cbn; [|reflexivity].
    destruct (Py.fined (Py.Int 80) fine rep); reflexivity.
  - repeat split; reflexivity.
Qed.

(** The claim C3 as the specification words it fails on floats: with a fine
    of 1e-20 and no reputation loss, B's payoff under "Partnership" is 80.0,
    the value it has under "Individual", although the penalty is positive. *)
Lemma liability_asymmetry_float_counterexample :
  Py.pair_payoffs true 0 1 (Py.Float float_1e_20) (Py.Float float_0) "Individual"
    = Py.Value (Py.Float float_100, Py.Int 80)
  /\ Py.pair_payoffs true 0 1 (Py.Float float_1e_20) (Py.Float float_0) "Partnership"
     = Py.Value (Py.Float float_100, Py.Float float_80)
  /\ Py.value (Py.Float float_80) = Py.value (Py.Int 80)
  /\ exists penalty,
       Py.value (Py.Float (SFadd 53 1024 float_1e_20 float_0)) = Some penalty
       /\ (0 < penalty)%Q
       /\ ~ (80 == 80 - penalty)%Q.
Proof.
  split; [by vm_compute|]. split; [by vm_compute|]. split; [by vm_compute|].
  eexists. split; [vm_compute; reflexivity|].
  split; [reflexivity|]. intros H. vm_compute in H. discriminate.
Qed.

(** C4, as the code has it: one audited pair of two Risky agents under
    "Partnership".  Each member pays its own penalty and the partner's: each
    payoff is [PROFIT] with [fine_amount + reputation_loss] subtracted
    twice, one subtraction after the other.  For ints that is exactly
    [PROFIT - 2 * (fine_amount + reputation_loss)]; for floats it is the
    binary64 result of the two subtractions. *)
Theorem partnership_compounding (fine rep : Py.number) (f r : Z) (x y : spec_float) :
  Py.pair_payoffs true 0 0 fine rep "Partnership"
  = (once ← Py.fined Py.PROFIT fine rep;
     twice ← Py.fined once fine rep;
     Py.Value (twice, twice))
  /\ Py.pair_payoffs true 0 0 (Py.Int f) (Py.Int r) "Partnership"
     = Py.Value (Py.Int (100 - 2 * (f + r)), Py.Int (100 - 2 * (f + r)))
  /\ Py.pair_payoffs true 0 0 (Py.Float x) (Py.Float y) "Partnership"
     = Py.Value
         (Py.Float (SFsub 53 1024 (SFsub 53 1024 float_100 (SFadd 53 1024 x y))
                      (SFadd 53 1024 x y)),
          Py.Float (SFsub 53 1024 (SFsub 53 1024 float_100 (SFadd 53 1024 x y))
                      (SFadd 53 1024 x y))).
Proof.
  split; [|split].
  - unfold Py.pair_payoffs. cbn.
    destruct (Py.fined Py.PROFIT fine rep) as [once|]; cbn; [|reflexivity].
    destruct (Py.fined once fine rep); reflexivity.
  - replace (100 - 2 * (f + r))%Z with (100 - (f + r) - (f + r))%Z by lia.
    reflexivity.
  - reflexivity.
Qed.

(** The claim C4 as the specification words it fails on floats: with a fine
    of 0.1 and no reputation loss each payoff is 99.80000000000001, which is
    not [PROFIT - 2 * (fine_amount + reputation_loss)], neither as a real
    number nor as the binary64 value of that expression, 99.8. *)
Lemma partnership_compounding_float_counterexample :
  let paid := S754_finite false 7022800668930868 (-46) in
  Py.pair_payoffs true 0 0 (Py.Float float_0_1) (Py.Float float_0) "Partnership"
    = Py.Value (Py.Float paid, Py.Float paid)
  /\ SFsub 53 1024 float_100
       (SFmul 53 1024 (S754_finite false 4503599627370496 (-51))
          (SFadd 53 1024 float_0_1 float_0))
     = S754_finite false 7022800668930867 (-46)
  /\ exists payoff penalty,
       Py.value (Py.Float paid) = Some payoff
       /\ Py.value (Py.Float (SFadd 53 1024 float_0_1 float_0)) = Some penalty
       /\ ~ (payoff == 100 - 2 * penalty)%Q.
Proof.
  intros paid.
  split; [by vm_compute|]. split; [by vm_compute|].
  eexists; eexists. split; [vm_compute; reflexivity|].
  split; [vm_compute; reflexivity|]. intros H. vm_compute in H. discriminate.
Qed.

(** ** The liability model is read only through the test against "Partnership" *)

Section SameTest.
Variables (p f r : Q) (m1 m2 : string).
Hypothesis same_test : is_partnership m1 = is_partnership m2.

Lemma pair_payoffs_same_test aud sa sb :
  pair_payoffs aud sa sb f r m1 = pair_payoffs aud sa sb f r m2.
Proof using same_test. unfold pair_payoffs. by rewrite same_test. Qed.

Lemma play_pair_same_test h g ab :
  play_pair p f r m1 h g ab = play_pair p f r m2 h g ab.
Proof using same_test.
  destruct ab as [a b]. rewrite !play_pair_unfold. cbn zeta.
  by rewrite pair_payoffs_same_test.
Qed.

Lemma play_pairs_same_test pairs h g :
  play_pairs p f r m1 pairs h g = play_pairs p f r m2 pairs h g.
Proof using same_test.
  revert h g. induction pairs as [|ab pairs IH]; intros h g; simpl; [done|].
  rewrite play_pair_same_test. destruct (play_pair _ _ _ _ _ _ _). apply IH.
Qed.

Lemma play_same_test w : play p f r m1 w = play p f r m2 w.
Proof using same_test.
  unfold play. destruct (shuffle _ _). by rewrite play_pairs_same_test.
Qed.

Lemma round_same_test w : round p f r m1 w = round p f r m2 w.
Proof using same_test. unfold round. by rewrite play_same_test. Qed.

Lemma rounds_same_test n w : rounds p f r m1 n w = rounds p f r m2 n w.
Proof using same_test.
  revert w. induction n as [|n IH]; intros w; simpl; [done|].
  by rewrite round_same_test, IH.
Qed.
End SameTest.

Lemma is_partnership_false m : m <> "Partnership"%string -> is_partnership m = false.
Proof. intros Hm. unfold is_partnership. by apply String.eqb_neq. Qed.

(** C10: every liability model other than "Partnership" gives the run of
    "Individual" on the same random stream: the same result and the same
    generator afterwards.  This holds for the string "LLC" that [main]
    passes, whose runs are those of "Individual". *)
Theorem non_partnership_models_agree (m : string) (n rounds_n : Z) (p f r : Q) (g : rng) :
  m <> "Partnership"%string ->
  run_evolutionary_cycle_with n rounds_n p f r m g
    = run_evolutionary_cycle_with n rounds_n p f r "Individual" g
  /\ run_evolutionary_cycle p f r m g
     = run_evolutionary_cycle p f r "Individual" g
  /\ llc_run p g
     = run_evolutionary_cycle p LLC_FINE LLC_REPUTATION_LOSS "Individual" g.
Proof.
  intros Hm.
  assert (forall n' k' f' r' m', m' <> "Partnership"%string ->
            run_evolutionary_cycle_with n' k' p f' r' m' g
            = run_evolutionary_cycle_with n' k' p f' r' "Individual" g) as Hrun.
  { intros n' k' f' r' m' Hm'. unfold run_evolutionary_cycle_with, final_world.
    by rewrite (rounds_same_test p f' r' m' "Individual")
      by (by rewrite is_partnership_false). }
  split; [by apply Hrun|]. split; [by apply Hrun|].
  unfold llc_run. by apply Hrun.
Qed.

Lemma non_partnership_models_agree_witness :
  run_evolutionary_cycle_with 4 2 (1 # 2) 30 10 "LLC" (lcg 1)
    = run_evolutionary_cycle_with 4 2 (1 # 2) 30 10 "Individual" (lcg 1).
Proof.
  destruct (non_partnership_models_agree "LLC" 4 2 (1 # 2) 30 10 (lcg 1)) as [H _];
    [ discriminate | exact H ].
Defined.

(** ** The random source *)

Lemma advance_0 g : advance 0 g = g.
Proof. destruct g as [src pos]. unfold advance; simpl. f_equal. lia. Qed.

Lemma advance_advance j k g : advance k (advance j g) = advance (j + k) g.
Proof. unfold advance; simpl. f_equal. lia. Qed.

Lemma random_snd g : (random g).2 = advance 1 g.
Proof. unfold random, next_word, advance; simpl. f_equal. lia. Qed.

Lemma random_fst g : (random g).1 = draw 0 g.
Proof. unfold draw. by rewrite advance_0. Qed.

Lemma draw_advance j k g : draw k (advance j g) = draw (j + k) g.
Proof. unfold draw. by rewrite advance_advance. Qed.

Lemma Qltb_lt x y : Qltb x y = true <-> (x < y)%Q.
Proof.
  unfold Qltb. rewrite negb_true_iff, <- not_true_iff_false, Qle_bool_iff.
  split; [apply Qnot_le_lt | apply Qlt_not_le].
Qed.

Lemma Qltb_ge x y : Qltb x y = false <-> (y <= x)%Q.
Proof. unfold Qltb. by rewrite negb_false_iff, Qle_bool_iff. Qed.

(** ** The switching loop *)

Lemma switch_loop_cons s a group h g :
  switch_loop s (a :: group) h g =
    switch_loop s group (alter (decided 0 s g) a h) (advance 1 g).
Proof.
  cbn [switch_loop]. rewrite <- random_snd. unfold decided. rewrite <- random_fst.
  destruct (random g) as [u g']; cbn [fst snd].
  destruct (Qltb u LEARNING_RATE); [done|].
  by rewrite (list_alter_id id).
Qed.


Lemma switch_loop_gen s group h g :
  (switch_loop s group h g).2 = advance (length group) g.
Proof.
  revert h g. induction group as [|a group IH]; intros h g.
  - by rewrite advance_0.
  - rewrite switch_loop_cons, IH, advance_advance. done.
Qed.



Lemma switch_loop_wealth s group h g :
  wealth <$> (switch_loop s group h g).1 = wealth <$> h.
Proof.
  revert h g. induction group as [|b group IH]; intros h g; [done|].
  rewrite switch_loop_cons, IH.
  apply list_eq. intros i. rewrite !list_lookup_fmap, list_lookup_alter.
  case_decide as Hi; [|done]. subst.
  destruct (h !! i) as [x|]; [|done]. simpl. f_equal.
  unfold decided. by destruct (Qltb _ _).
Qed.

Lemma switch_loop_length s group h g :
  length (switch_loop s group h g).1 = length h.
Proof.
  rewrite <- (length_fmap wealth), switch_loop_wealth. apply length_fmap.
Qed.

(** ** The learning step *)

Lemma evolve_unfold agents h g :
  evolve agents h g =
    if Qltb (avg_wealth h (with_strategy 1 h agents))
            (avg_wealth h (with_strategy 0 h agents))
    then switch_loop 0 (with_strategy 1 h agents) h g
    else if Qltb (avg_wealth h (with_strategy 0 h agents))
                 (avg_wealth h (with_strategy 1 h agents))
    then switch_loop 1 (with_strategy 0 h agents) h g
    else (h, g).
Proof. done. Qed.

Lemma evolve_risky_ahead agents h g :
  (avg_wealth h (with_strategy 1 h agents) < avg_wealth h (with_strategy 0 h agents))%Q ->
  evolve agents h g = switch_loop 0 (with_strategy 1 h agents) h g.
Proof. intros H%Qltb_lt. by rewrite evolve_unfold, H. Qed.

Lemma evolve_safe_ahead agents h g :
  (avg_wealth h (with_strategy 0 h agents) < avg_wealth h (with_strategy 1 h agents))%Q ->
  evolve agents h g = switch_loop 1 (with_strategy 0 h agents) h g.
Proof.
  intros H. rewrite evolve_unfold.
  rewrite (proj2 (Qltb_ge _ _)) by by apply Qlt_le_weak.
  apply Qltb_lt in H. by rewrite H.
Qed.

Lemma evolve_level agents h g :
  (avg_wealth h (with_strategy 1 h agents) <= avg_wealth h (with_strategy 0 h agents))%Q ->
  (avg_wealth h (with_strategy 0 h agents) <= avg_wealth h (with_strategy 1 h agents))%Q ->
  evolve agents h g = (h, g).
Proof.
  intros H1 H2. rewrite evolve_unfold.
  by rewrite (proj2 (Qltb_ge _ _)), (proj2 (Qltb_ge _ _)).
Qed.





(** ** A population of one strategy *)

Lemma with_strategy_all s h agents :
  (forall a, a ∈ agents -> strategy (h !!! a) = s) ->
  with_strategy s h agents = agents.
Proof.
  intros Hall. unfold with_strategy.
  induction agents as [|a agents IH]; [done|].
  rewrite filter_cons_True by (apply Hall; left).
  f_equal. apply IH. intros b Hb. apply Hall. by right.
Qed.

Lemma with_strategy_none s h agents :
  (forall a, a ∈ agents -> strategy (h !!! a) <> s) ->
  with_strategy s h agents = [].
Proof.
  intros Hall. unfold with_strategy.
  induction agents as [|a agents IH]; [done|].
  rewrite filter_cons_False by (apply Hall; left).
  apply IH. intros b Hb. apply Hall. by right.
Qed.

(** C2, as the code has it: when every agent has the strategy [s], the
    group of the other strategy is empty and its mean is 0, and that 0 is
    what the mean of the population is compared with.  If the mean wealth of
    the population is not negative, the step leaves the store and the
    generator as they were; if it is negative, the step runs the switching
    loop over the whole population, each agent moving to the other strategy
    when its draw is below [LEARNING_RATE]. *)
Theorem single_strategy_learning (agents : list nat) (h : list Agent) (g : rng) (s : Z) :
  (s = 0 \/ s = 1)%Z ->
  (forall a, a ∈ agents -> strategy (h !!! a) = s) ->
  let other := (1 - s)%Z in
  with_strategy other h agents = []
  /\ avg_wealth h (with_strategy other h agents) = 0%Q
  /\ ((0 <= avg_wealth h agents)%Q -> evolve agents h g = (h, g))
  /\ ((avg_wealth h agents < 0)%Q ->
      evolve agents h g = switch_loop other agents h g).
Proof.
  intros Hs Hall other.
  assert (with_strategy s h agents = agents) as Hsame
    by by apply with_strategy_all.
  assert (with_strategy other h agents = []) as Hnone.
  { apply with_strategy_none. intros a Ha. rewrite (Hall a Ha). unfold other. lia. }
  split; [done|]. split; [by rewrite Hnone|].
  destruct Hs as [-> | ->]; unfold other in *;
    change (1 - 0)%Z with 1%Z in *; change (1 - 1)%Z with 0%Z in *.
  - split; intros Hw.
    + apply Qle_lt_or_eq in Hw as [Hw | Hw].
      * rewrite evolve_risky_ahead by (by rewrite Hnone, Hsame).
        by rewrite Hnone.
      * apply evolve_level; rewrite Hnone, Hsame; simpl; rewrite <- Hw;
          apply Qle_refl.
    + rewrite evolve_safe_ahead by (by rewrite Hnone, Hsame).
      by rewrite Hsame.
  - split; intros Hw.
    + apply Qle_lt_or_eq in Hw as [Hw | Hw].
      * rewrite evolve_safe_ahead by (by rewrite Hnone, Hsame).
        by rewrite Hnone.
      * apply evolve_level; rewrite Hnone, Hsame; simpl; rewrite <- Hw;
          apply Qle_refl.
    + rewrite evolve_risky_ahead by (by rewrite Hnone, Hsame).
      by rewrite Hsame.
Qed.

Lemma single_strategy_learning_witness :
  let h := [mkAgent 1 80; mkAgent 1 80] in
  evolve [0; 1] h zero_rng = (h, zero_rng).
Proof.
  intros h.
  destruct (single_strategy_learning [0; 1] h zero_rng 1) as (_ & _ & H & _);
    [ by right | | ].
  - intros a Ha. apply list_elem_of_In in Ha. simpl in Ha.
    destruct Ha as [<- | [<- | []]]; reflexivity.
  - apply H. vm_compute. discriminate.
Defined.

(** The claim C2 as the specification words it fails: after one audited
    round of two Risky partners under "Partnership" with the fines of
    [main], both agents are Risky with wealth -300, and the learning step
    turns both Safe. *)
Lemma single_strategy_switch_counterexample :
  let w := play (1 # 2) PARTNERSHIP_FINE PARTNERSHIP_REPUTATION_LOSS "Partnership"
             (reset two_risky) in
  strategy <$> heap w = [0; 0]%Z
  /\ wealth <$> heap w = [-300; -300]%Q
  /\ with_strategy 1 (heap w) (agents w) = []
  /\ strategy <$> heap (learn w) = [1; 1]%Z.
Proof. vm_compute. repeat split. Qed.

(** ** Shuffling permutes *)

Section Shuffle.
Context {A : Type}.
Implicit Types x : list A.

Lemma insert_delete_perm x i v y :
  x !! i = Some y -> <[i := v]> x ≡ₚ v :: delete i x.
Proof.
  revert i. induction x as [|a x IH]; intros [|i] Hi; try done; simpl in *.
  rewrite (IH i Hi). apply Permutation_swap.
Qed.

Lemma insert_delete_other x i j xi xj :
  x !! i = Some xi -> x !! j = Some xj -> i <> j ->
  xi :: delete j (<[i := xj]> x) ≡ₚ xj :: delete j x.
Proof.
  revert i j. induction x as [|a x IH]; intros [|i] [|j] Hi Hj Hij;
    try done; simpl in *.
  - injection Hi as ->. apply Permutation_swap.
  - injection Hj as ->.
    trans (xi :: xj :: delete i x).
    { constructor. by eapply insert_delete_perm. }
    trans (xj :: xi :: delete i x); [apply Permutation_swap|].
    constructor. symmetry. by apply delete_Permutation.
  - trans (a :: xi :: delete j (<[i := xj]> x)); [apply Permutation_swap|].
    trans (a :: xj :: delete j x); [|apply Permutation_swap].
    constructor. apply IH; [done|done|congruence].
Qed.

Lemma swap_perm i j x : swap i j x ≡ₚ x.
Proof.
  unfold swap.
  destruct (x !! i) as [xi|] eqn:Hi; [|done].
  destruct (x !! j) as [xj|] eqn:Hj; [|done].
  destruct (decide (i = j)) as [->|Hij].
  - rewrite list_insert_insert_eq, list_insert_id; [done|congruence].
  - trans (xi :: delete j (<[i := xj]> x)).
    { eapply insert_delete_perm. by rewrite list_lookup_insert_ne. }
    trans (xj :: delete j x); [by apply insert_delete_other|].
    symmetry. by apply delete_Permutation.
Qed.

Lemma swap_length i j x : length (swap i j x) = length x.
Proof. apply Permutation_length, swap_perm. Qed.

Lemma shuffle_loop_perm i x g : (shuffle_loop i x g).1 ≡ₚ x.
Proof.
  revert x g. induction i as [|i IH]; intros x g; simpl; [done|].
  destruct (randbelow (S (S i)) g) as [j g']. rewrite IH. apply swap_perm.
Qed.

Lemma shuffle_perm x g : (shuffle x g).1 ≡ₚ x.
Proof. apply shuffle_loop_perm. Qed.
End Shuffle.

(** ** Every order can be drawn *)

Lemma reads_scripted ws : reads ws (scripted ws).
Proof.
  intros k w Hk. unfold scripted; simpl.
  replace (N.to_nat (0 + N.of_nat k)) with k by lia. by rewrite Hk.
Qed.

Lemma reads_cons w ws g :
  reads (w :: ws) g -> source g (position g) = w /\ reads ws (advance 1 g).
Proof.
  intros Hg. split.
  - rewrite <- (Hg 0 w eq_refl). f_equal. lia.
  - intros k w' Hk. rewrite <- (Hg (S k) w' Hk). unfold advance; simpl.
    f_equal. lia.
Qed.

Lemma randbelow_reads n j ws g :
  j < n -> reads (N.of_nat j :: ws) g -> randbelow n g = (j, advance 1 g).
Proof.
  intros Hj [Hw _]%reads_cons. unfold randbelow, next_word. rewrite Hw.
  f_equal.
  - rewrite N.mod_small by lia. lia.
  - unfold advance. f_equal. lia.
Qed.

Section Onto.
Context {A : Type}.
Implicit Types x y : list A.

Lemma swap_lookup i j x xi xj :
  x !! i = Some xi -> x !! j = Some xj -> swap i j x !! i = Some xj.
Proof.
  intros Hi Hj. unfold swap. rewrite Hi, Hj.
  destruct (decide (i = j)) as [->|Hij].
  - rewrite list_lookup_insert_eq; [congruence|].
    rewrite length_insert. by eapply lookup_lt_Some.
  - rewrite list_lookup_insert_ne by done.
    apply list_lookup_insert_eq. by eapply lookup_lt_Some.
Qed.

Lemma swap_drop n i j x : i < n -> j < n -> drop n (swap i j x) = drop n x.
Proof.
  intros Hi Hj. unfold swap.
  destruct (x !! i); [|done]. destruct (x !! j); [|done].
  by rewrite !drop_insert_lt.
Qed.

Lemma prefix_perm n x y :
  y ≡ₚ x -> drop n y = drop n x -> take n y ≡ₚ take n x.
Proof.
  intros Hperm Hdrop.
  apply (Permutation_app_inv_r (drop n x)).
  rewrite <- Hdrop at 1. by rewrite !take_drop.
Qed.

Lemma shuffle_loop_onto i x y :
  i < length x ->
  y ≡ₚ x ->
  drop (S i) y = drop (S i) x ->
  exists ws, forall g, reads ws g -> (shuffle_loop i x g).1 = y.
Proof.
  revert x. induction i as [|i IH]; intros x Hi Hperm Hdrop.
  - exists []. intros g _. simpl.
    pose proof (prefix_perm 1 x y Hperm Hdrop) as Hhead.
    pose proof (Permutation_length Hperm) as Hlen.
    destruct x as [|a x]; [simpl in Hi; lia|]. destruct y as [|b y]; [done|].
    simpl in Hdrop, Hhead. rewrite !drop_0 in Hdrop. rewrite !take_0 in Hhead.
    apply Permutation_singleton_inj in Hhead. congruence.
  - pose proof (Permutation_length Hperm) as Hlen.
    destruct (lookup_lt_is_Some_2 y (S i)) as [v Hv]; [lia|].
    destruct (lookup_lt_is_Some_2 x (S i)) as [xi Hxi]; [lia|].
    assert (exists j, j < S (S i) /\ x !! j = Some v) as (j & Hj & Hxj).
    { assert (v ∈ take (S (S i)) x) as Hin.
      { rewrite <- (prefix_perm (S (S i)) x y Hperm Hdrop).
        apply list_elem_of_lookup. exists (S i). rewrite lookup_take_lt; [done|lia]. }
      apply list_elem_of_lookup in Hin as [j Hin].
      pose proof (lookup_lt_Some _ _ _ Hin) as Hlt. rewrite length_take in Hlt.
      exists j. split; [lia|]. rewrite lookup_take_lt in Hin; [done|lia]. }
    destruct (IH (swap (S i) j x)) as [ws Hws].
    + rewrite swap_length. lia.
    + by rewrite swap_perm.
    + rewrite (drop_S y v (S i)) by done.
      rewrite (drop_S (swap (S i) j x) v (S i)) by by eapply swap_lookup.
      rewrite swap_drop by lia. by rewrite Hdrop.
    + exists (N.of_nat j :: ws). intros g Hg. cbn [shuffle_loop].
      rewrite (randbelow_reads (S (S i)) j ws g) by done.
      apply Hws. by apply reads_cons in Hg as [_ ?].
Qed.

Lemma shuffle_onto x y : y ≡ₚ x -> exists g, (shuffle x g).1 = y.
Proof.
  intros Hperm. pose proof (Permutation_length Hperm) as Hlen.
  destruct x as [|a x].
  - apply Permutation_nil_r in Hperm as ->. by exists zero_rng.
  - destruct (shuffle_loop_onto (length (a :: x) - 1) (a :: x) y) as [ws Hws].
    + simpl. lia.
    + done.
    + rewrite !drop_ge; [done|simpl; lia|simpl in *; lia].
    + exists (scripted ws). apply Hws, reads_scripted.
Qed.
End Onto.

(** ** An order determines the draws that gave it *)

Lemma randbelow_lt n g : 0 < n -> (randbelow n g).1 < n.
Proof.
  intros Hn. unfold randbelow, next_word. cbn [fst].
  assert (source g (position g) mod N.of_nat n < N.of_nat n)%N
    by (apply N.mod_lt; lia).
  lia.
Qed.

Lemma randbelow_snd n g : (randbelow n g).2 = advance 1 g.
Proof. unfold randbelow, next_word, advance; simpl. f_equal. lia. Qed.

Section Determined.
Context {A : Type}.
Implicit Types x : list A.

Lemma shuffle_loop_cons i x g :
  shuffle_loop (S i) x g =
    shuffle_loop i (swap (S i) (randbelow (S (S i)) g).1 x) (advance 1 g).
Proof.
  cbn [shuffle_loop]. rewrite <- (randbelow_snd (S (S i)) g).
  by destruct (randbelow (S (S i)) g).
Qed.

Lemma shuffle_loop_drop i x g : drop (S i) (shuffle_loop i x g).1 = drop (S i) x.
Proof.
  revert x g. induction i as [|i IH]; intros x g; [done|].
  rewrite shuffle_loop_cons.
  replace (S (S i)) with (S i + 1) at 1 3 by lia.
  rewrite <- !drop_drop, IH, !drop_drop.
  apply swap_drop; [lia|].
  pose proof (randbelow_lt (S (S i)) g). lia.
Qed.

Lemma shuffle_loop_last i x g xj :
  S i < length x ->
  x !! (randbelow (S (S i)) g).1 = Some xj ->
  (shuffle_loop (S i) x g).1 !! (S i) = Some xj.
Proof.
  intros Hi Hj.
  destruct (lookup_lt_is_Some_2 x (S i)) as [xi Hxi]; [done|].
  assert (drop (S i) (shuffle_loop (S i) x g).1 !! 0 = Some xj) as H.
  { rewrite shuffle_loop_cons, shuffle_loop_drop, lookup_drop, Nat.add_0_r.
    by eapply swap_lookup. }
  by rewrite lookup_drop, Nat.add_0_r in H.
Qed.

Lemma shuffle_loop_determined i x g1 g2 k :
  NoDup x ->
  i < length x ->
  (shuffle_loop i x g1).1 = (shuffle_loop i x g2).1 ->
  k < i ->
  (randbelow (S i - k) (advance k g1)).1 = (randbelow (S i - k) (advance k g2)).1.
Proof.
  revert x g1 g2 k. induction i as [|i IH]; intros x g1 g2 k Hnd Hi Heq Hk; [lia|].
  pose proof (randbelow_lt (S (S i)) g1 ltac:(lia)) as Hj1.
  pose proof (randbelow_lt (S (S i)) g2 ltac:(lia)) as Hj2.
  destruct (lookup_lt_is_Some_2 x (randbelow (S (S i)) g1).1) as [v1 Hv1]; [lia|].
  destruct (lookup_lt_is_Some_2 x (randbelow (S (S i)) g2).1) as [v2 Hv2]; [lia|].
  pose proof (shuffle_loop_last i x g1 v1 Hi Hv1) as H1.
  pose proof (shuffle_loop_last i x g2 v2 Hi Hv2) as H2.
  rewrite Heq, H2 in H1. injection H1 as ->.
  assert ((randbelow (S (S i)) g1).1 = (randbelow (S (S i)) g2).1) as Hsame
    by by eapply NoDup_lookup.
  destruct k as [|k].
  - by rewrite !advance_0.
  - rewrite !shuffle_loop_cons, Hsame in Heq.
    replace (S (S i) - S k) with (S i - k) by lia.
    rewrite <- !(advance_advance 1 k).
    apply (IH (swap (S i) (randbelow (S (S i)) g2).1 x)); [|by rewrite swap_length; lia|done|lia].
    by rewrite swap_perm.
Qed.
End Determined.

(** ** Pairing *)

Lemma every_other_cons {A} (b : A) (l : list A) :
  every_other (b :: l) = b :: every_other (drop 1 l).
Proof. by destruct l. Qed.

Lemma pairing_cons2 a b l : pairing (a :: b :: l) = (a, b) :: pairing l.
Proof.
  unfold pairing, slice2. simpl drop. rewrite (every_other_cons b).
  by rewrite drop_0.
Qed.

Lemma pairing_members k l : length l = 2 * k -> members (pairing l) = l.
Proof.
  revert l. induction k as [|k IH]; intros l Hl.
  - by destruct l.
  - destruct l as [|a [|b l]]; simpl in Hl; try lia.
    rewrite pairing_cons2. unfold members in *. simpl.
    do 2 f_equal. apply IH. lia.
Qed.

Lemma pairing_length k l : length l = 2 * k -> length (pairing l) = k.
Proof.
  revert l. induction k as [|k IH]; intros l Hl.
  - by destruct l.
  - destruct l as [|a [|b l]]; simpl in Hl; try lia.
    rewrite pairing_cons2. simpl. f_equal. apply IH. lia.
Qed.

(** ** What each phase leaves alone *)

Lemma alter_keeps {B} (proj : Agent -> B) (f : Agent -> Agent) i (h : list Agent) :
  (forall x, proj (f x) = proj x) -> proj <$> alter f i h = proj <$> h.
Proof.
  intros Hf. apply list_eq. intros j.
  rewrite !list_lookup_fmap, list_lookup_alter.
  case_decide as Hj; [|done]. subst.
  destruct (h !! j) as [x|]; [|done]. simpl. by rewrite Hf.
Qed.

Lemma lookup_total_proj {B} (proj : Agent -> B) (h1 h2 : list Agent) a :
  proj <$> h1 = proj <$> h2 -> proj (h1 !!! a) = proj (h2 !!! a).
Proof.
  intros Heq. rewrite !list_lookup_total_alt.
  assert (proj <$> h1 !! a = proj <$> h2 !! a) as Ha
    by by rewrite <- !list_lookup_fmap, Heq.
  destruct (h1 !! a), (h2 !! a); simpl in *; congruence.
Qed.

Lemma reset_wealth_strategy agents h :
  strategy <$> reset_wealth agents h = strategy <$> h.
Proof.
  revert h. induction agents as [|a agents IH]; intros h; simpl; [done|].
  rewrite IH. by apply alter_keeps.
Qed.

Lemma play_pair_strategy p f r m h g ab :
  strategy <$> (play_pair p f r m h g ab).1 = strategy <$> h.
Proof.
  destruct ab as [a b]. rewrite play_pair_unfold. cbn zeta. cbn [fst].
  by rewrite !alter_keeps.
Qed.

Lemma play_pairs_strategy p f r m pairs h g :
  strategy <$> (play_pairs p f r m pairs h g).1 = strategy <$> h.
Proof.
  revert h g. induction pairs as [|ab pairs IH]; intros h g; simpl; [done|].
  pose proof (play_pair_strategy p f r m h g ab) as Hab.
  destruct (play_pair p f r m h g ab) as [h' g']. rewrite IH. done.
Qed.

Lemma play_agents p f r m w :
  agents (play p f r m w) = (shuffle (agents w) (gen w)).1.
Proof.
  unfold play. destruct (shuffle _ _) as [ags g].
  by destruct (play_pairs _ _ _ _ _ _ _).
Qed.

Lemma play_heap p f r m w :
  heap (play p f r m w) =
    (play_pairs p f r m (pairing (shuffle (agents w) (gen w)).1) (heap w)
       (shuffle (agents w) (gen w)).2).1.
Proof.
  unfold play. destruct (shuffle _ _) as [ags g]. simpl.
  by destruct (play_pairs _ _ _ _ _ _ _).
Qed.

Lemma play_strategy p f r m w :
  strategy <$> heap (play p f r m w) = strategy <$> heap w.
Proof. rewrite play_heap. apply play_pairs_strategy. Qed.

Lemma learn_agents w : agents (learn w) = agents w.
Proof. unfold learn. by destruct (evolve _ _ _). Qed.

Lemma learn_heap w : heap (learn w) = (evolve (agents w) (heap w) (gen w)).1.
Proof. unfold learn. by destruct (evolve _ _ _). Qed.

Lemma evolve_wealth agents h g :
  wealth <$> (evolve agents h g).1 = wealth <$> h.
Proof.
  rewrite evolve_unfold.
  repeat (destruct (Qltb _ _)); simpl; auto using switch_loop_wealth.
Qed.

Lemma learn_wealth w : wealth <$> heap (learn w) = wealth <$> heap w.
Proof. rewrite learn_heap. apply evolve_wealth. Qed.

(** ** Strategies stay 0 or 1 *)

Lemma binary_strategies h1 h2 :
  strategy <$> h1 = strategy <$> h2 -> Forall binary h1 -> Forall binary h2.
Proof.
  intros Heq H1. apply Forall_lookup. intros i x Hx.
  assert (strategy <$> h1 !! i = Some (strategy x)) as Hi
    by by rewrite <- list_lookup_fmap, Heq, list_lookup_fmap, Hx.
  destruct (h1 !! i) as [y|] eqn:Hy; [|done].
  injection Hi as Hi. unfold binary. rewrite <- Hi.
  by eapply (Forall_lookup_1 binary h1).
Qed.

Lemma switch_loop_binary s group h g :
  (s = 0 \/ s = 1)%Z -> Forall binary h -> Forall binary (switch_loop s group h g).1.
Proof.
  intros Hs. revert h g. induction group as [|a group IH]; intros h g Hh; [done|].
  rewrite switch_loop_cons. apply IH. apply Forall_alter; [done|].
  intros x _ Hx. unfold decided. by destruct (Qltb _ _).
Qed.

Lemma evolve_binary agents h g :
  Forall binary h -> Forall binary (evolve agents h g).1.
Proof.
  intros Hh. rewrite evolve_unfold.
  repeat (destruct (Qltb _ _)); simpl; auto using switch_loop_binary.
Qed.

Lemma evolve_length agents h g : length (evolve agents h g).1 = length h.
Proof.
  rewrite <- (length_fmap wealth), evolve_wealth. apply length_fmap.
Qed.

Lemma binary_lookup_total h a : Forall binary h -> binary (h !!! a).
Proof.
  intros Hh. rewrite list_lookup_total_alt.
  destruct (h !! a) as [x|] eqn:Ha; simpl.
  - by eapply Forall_lookup_1.
  - by left.
Qed.

(** ** Well-formed worlds *)

Lemma initial_heap_length n : length (initial_heap n) = 2 * Z.to_nat (n / 2).
Proof. unfold initial_heap. rewrite length_app, !length_replicate. lia. Qed.

Lemma initialize_heap n g : heap (initialize n g) = initial_heap n.
Proof. unfold initialize. by destruct (shuffle _ _). Qed.

Lemma initialize_agents n g :
  agents (initialize n g) = (shuffle (seq 0 (length (initial_heap n))) g).1.
Proof. unfold initialize. by destruct (shuffle _ _). Qed.

Lemma well_formed_initialize n g : well_formed (Z.to_nat (n / 2)) (initialize n g).
Proof.
  unfold well_formed. rewrite initialize_heap, initialize_agents.
  split; [apply initial_heap_length|]. split.
  - rewrite shuffle_perm. by rewrite initial_heap_length.
  - unfold initial_heap. apply Forall_app.
    split; apply Forall_replicate; [by right | by left].
Qed.

Lemma reset_wealth_length agents h : length (reset_wealth agents h) = length h.
Proof.
  rewrite <- (length_fmap strategy), reset_wealth_strategy. apply length_fmap.
Qed.

Lemma well_formed_reset k w : well_formed k w -> well_formed k (reset w).
Proof.
  intros (Hlen & Hperm & Hbin). unfold well_formed, reset; simpl.
  rewrite reset_wealth_length. split; [done|]. split; [done|].
  eapply binary_strategies; [|done]. symmetry. apply reset_wealth_strategy.
Qed.

Lemma well_formed_play p f r m k w :
  well_formed k w -> well_formed k (play p f r m w).
Proof.
  intros (Hlen & Hperm & Hbin). unfold well_formed.
  rewrite play_agents, shuffle_perm.
  rewrite <- (length_fmap strategy), play_strategy, length_fmap.
  split; [done|]. split; [done|].
  eapply binary_strategies; [|done]. symmetry. apply play_strategy.
Qed.

Lemma well_formed_learn k w : well_formed k w -> well_formed k (learn w).
Proof.
  intros (Hlen & Hperm & Hbin). unfold well_formed.
  rewrite learn_agents, learn_heap, evolve_length.
  split; [done|]. split; [done|]. by apply evolve_binary.
Qed.

Lemma well_formed_round p f r m k w :
  well_formed k w -> well_formed k (round p f r m w).
Proof.
  intros Hw. by apply well_formed_learn, well_formed_play, well_formed_reset.
Qed.

Lemma well_formed_rounds p f r m k t w :
  well_formed k w -> well_formed k (rounds p f r m t w).
Proof.
  revert w. induction t as [|t IH]; intros w Hw; simpl; [done|].
  by apply IH, well_formed_round.
Qed.

Lemma well_formed_phases p f r m k w w' :
  well_formed k w -> w' ∈ phases p f r m w -> well_formed k w'.
Proof.
  intros Hw Hin. unfold phases in Hin.
  repeat (apply elem_of_cons in Hin as [-> | Hin]);
    [ done | by apply well_formed_reset
    | by apply well_formed_play, well_formed_reset
    | by apply well_formed_round | by apply elem_of_nil in Hin ].
Qed.

(** ** Counting the two groups *)

Lemma with_strategy_cons s h a agents :
  with_strategy s h (a :: agents) =
    if decide (strategy (h !!! a) = s) then a :: with_strategy s h agents
    else with_strategy s h agents.
Proof. done. Qed.

Lemma groups_count h agents :
  Forall binary h ->
  length (with_strategy 1 h agents) + length (with_strategy 0 h agents)
    = length agents.
Proof.
  intros Hh. induction agents as [|a agents IH]; [done|].
  rewrite !with_strategy_cons.
  destruct (binary_lookup_total h a Hh) as [Ha | Ha]; rewrite Ha;
    repeat case_decide; try done; simpl; lia.
Qed.

Lemma groups_disjoint h agents a :
  a ∈ with_strategy 1 h agents -> a ∉ with_strategy 0 h agents.
Proof.
  unfold with_strategy. rewrite !list_elem_of_filter.
  intros [H1 _] [H0 _]. congruence.
Qed.

Lemma strategy_sum_count h agents :
  Forall binary h ->
  strategy_sum h agents = Z.of_nat (length (with_strategy 1 h agents)).
Proof.
  intros Hh. unfold strategy_sum.
  assert (forall acc, foldl (λ acc a, acc + strategy (h !!! a))%Z acc agents
            = (acc + Z.of_nat (length (with_strategy 1 h agents)))%Z) as Hgen.
  { induction agents as [|a agents IH]; intros acc; simpl; [lia|].
    rewrite IH, with_strategy_cons.
    destruct (binary_lookup_total h a Hh) as [Ha | Ha]; rewrite Ha;
      case_decide; try done; simpl length; lia. }
  by rewrite Hgen.
Qed.

Lemma well_formed_agents_length k w : well_formed k w -> length (agents w) = 2 * k.
Proof. intros (_ & Hperm & _). by rewrite Hperm, length_seq. Qed.

Lemma even_population n : (0 <= n)%Z -> Z.even n = true -> Z.of_nat (2 * Z.to_nat (n / 2)) = n.
Proof.
  intros Hn Heven. apply Z.even_spec in Heven as [c ->].
  rewrite (Z.mul_comm 2 c), Z.div_mul by lia. lia.
Qed.

(** C9: take the world at the start of any round of a cycle over an even
    population size [n], and any of the worlds that round goes through
    (before and after the reset, after pairing and playing, after
    learning).  In each of them the store holds [n] agents, the list
    [agents] holds each of them exactly once, every strategy is 0 or 1, no
    agent is in both the Safe and the Risky group, the sizes of the two
    groups add up to [n], and the consecutive pairs of the list are the list
    itself, so they hold every agent exactly once. *)
Theorem partition_invariant (n : Z) (p f r : Q) (m : string) (g : rng)
    (t : nat) (w : world) :
  (0 <= n)%Z ->
  Z.even n = true ->
  w ∈ phases p f r m (rounds p f r m t (initialize n g)) ->
  let safe := with_strategy 1 (heap w) (agents w) in
  let risky := with_strategy 0 (heap w) (agents w) in
  Z.of_nat (length (heap w)) = n
  /\ agents w ≡ₚ seq 0 (length (heap w))
  /\ Forall binary (heap w)
  /\ (forall a, a ∈ safe -> a ∉ risky)
  /\ Z.of_nat (length safe + length risky) = n
  /\ members (pairing (agents w)) = agents w
  /\ members (pairing (agents w)) ≡ₚ seq 0 (length (heap w)).
Proof.
  intros Hn Heven Hin safe risky.
  assert (well_formed (Z.to_nat (n / 2)) w) as Hw.
  { eapply well_formed_phases; [|done].
    apply well_formed_rounds, well_formed_initialize. }
  pose proof (well_formed_agents_length _ _ Hw) as Hags.
  destruct Hw as (Hlen & Hperm & Hbin).
  pose proof (even_population n Hn Heven) as Hsize.
  assert (members (pairing (agents w)) = agents w) as Hpairs
    by by eapply pairing_members.
  repeat split.
  - by rewrite Hlen.
  - by rewrite Hlen.
  - done.
  - apply groups_disjoint.
  - unfold safe, risky. rewrite groups_count by done. by rewrite Hags.
  - done.
  - by rewrite Hpairs, Hlen.
Qed.

Lemma partition_invariant_witness :
  Z.of_nat (length (with_strategy 1 (heap (initialize POPULATION_SIZE (lcg 1)))
                      (agents (initialize POPULATION_SIZE (lcg 1))))
            + length (with_strategy 0 (heap (initialize POPULATION_SIZE (lcg 1)))
                        (agents (initialize POPULATION_SIZE (lcg 1)))))
    = POPULATION_SIZE.
Proof.
  assert (initialize POPULATION_SIZE (lcg 1)
            ∈ phases (1 # 2) 30 10 "LLC"
                (rounds (1 # 2) 30 10 "LLC" 0 (initialize POPULATION_SIZE (lcg 1))))
    as Hin by (unfold phases; cbn [rounds]; apply list_elem_of_here).
  destruct (partition_invariant POPULATION_SIZE (1 # 2) 30 10 "LLC" (lcg 1) 0
              (initialize POPULATION_SIZE (lcg 1)))
    as (_ & _ & _ & _ & H1 & _);
    [ unfold POPULATION_SIZE; lia | reflexivity | exact Hin | ].
  exact H1.
Defined.

(** ** The initial population *)

Lemma with_strategy_perm s h l1 l2 :
  l1 ≡ₚ l2 -> with_strategy s h l1 ≡ₚ with_strategy s h l2.
Proof. intros H. unfold with_strategy. by rewrite H. Qed.

Lemma with_strategy_app s h l1 l2 :
  with_strategy s h (l1 ++ l2) = with_strategy s h l1 ++ with_strategy s h l2.
Proof. apply list.filter_app. Qed.

Lemma initial_heap_lookup_safe n i :
  i < Z.to_nat (n / 2) -> initial_heap n !!! i = new_Agent 1.
Proof.
  intros Hi. unfold initial_heap.
  rewrite lookup_total_app_l by by rewrite length_replicate.
  by apply list_lookup_total_correct, lookup_replicate_2.
Qed.

Lemma initial_heap_lookup_risky n i :
  i < Z.to_nat (n / 2) -> initial_heap n !!! (Z.to_nat (n / 2) + i) = new_Agent 0.
Proof.
  intros Hi. unfold initial_heap.
  rewrite lookup_total_app_r by (rewrite length_replicate; lia).
  rewrite length_replicate.
  apply list_lookup_total_correct, lookup_replicate_2. lia.
Qed.

Lemma initial_groups n :
  let k := Z.to_nat (n / 2) in
  with_strategy 1 (initial_heap n) (seq 0 (2 * k)) = seq 0 k
  /\ with_strategy 0 (initial_heap n) (seq 0 (2 * k)) = seq k k.
Proof.
  intros k.
  replace (2 * k) with (k + k) by lia. rewrite seq_app, !with_strategy_app. simpl.
  assert (with_strategy 1 (initial_heap n) (seq 0 k) = seq 0 k) as ->.
  { apply with_strategy_all. intros a Ha%elem_of_seq.
    rewrite initial_heap_lookup_safe; [done|lia]. }
  assert (with_strategy 0 (initial_heap n) (seq 0 k) = []) as ->.
  { apply with_strategy_none. intros a Ha%elem_of_seq.
    rewrite initial_heap_lookup_safe; [done|lia]. }
  assert (with_strategy 0 (initial_heap n) (seq k k) = seq k k) as ->.
  { apply with_strategy_all. intros a Ha%elem_of_seq.
    replace a with (Z.to_nat (n / 2) + (a - k)) by (unfold k; lia).
    rewrite initial_heap_lookup_risky; [done|lia]. }
  assert (with_strategy 1 (initial_heap n) (seq k k) = []) as ->.
  { apply with_strategy_none. intros a Ha%elem_of_seq.
    replace a with (Z.to_nat (n / 2) + (a - k)) by (unfold k; lia).
    rewrite initial_heap_lookup_risky; [done|lia]. }
  by rewrite app_nil_r.
Qed.

(** C6: for an even population size [n], construction allocates [n]
    agents, the first [n / 2] Safe and the other [n / 2] Risky, all with
    wealth 0; the list [agents] the cycle starts from is the shuffle of the
    list of all of them, a permutation of it, so its Safe group and its
    Risky group have [n / 2] members each.  Every cycle starts its rounds
    from this world.  The shuffle is one to one between the index draws and
    the orders: every order of the agents is the outcome for some generator,
    and two generators that give the same order made the same index draws;
    so uniform index draws give a uniform order. *)
Theorem balanced_initial_population (n : Z) (g : rng) :
  (0 <= n)%Z ->
  Z.even n = true ->
  let w := initialize n g in
  heap w = replicate (Z.to_nat (n / 2)) (new_Agent 1)
           ++ replicate (Z.to_nat (n / 2)) (new_Agent 0)
  /\ Z.of_nat (length (heap w)) = n
  /\ agents w = (shuffle (seq 0 (length (heap w))) g).1
  /\ agents w ≡ₚ seq 0 (length (heap w))
  /\ Z.of_nat (length (with_strategy 1 (heap w) (agents w))) = (n / 2)%Z
  /\ Z.of_nat (length (with_strategy 0 (heap w) (agents w))) = (n / 2)%Z
  /\ (forall rounds_n p f r m,
        final_world n rounds_n p f r m g = rounds p f r m (Z.to_nat rounds_n) w)
  /\ (forall order, order ≡ₚ seq 0 (length (heap w)) ->
        exists g', agents (initialize n g') = order)
  /\ (forall g1 g2 k,
        agents (initialize n g1) = agents (initialize n g2) ->
        k < length (heap w) - 1 ->
        (randbelow (length (heap w) - k) (advance k g1)).1
        = (randbelow (length (heap w) - k) (advance k g2)).1).
Proof.
  intros Hn Heven w.
  pose proof (well_formed_initialize n g) as (Hlen & Hperm & _).
  pose proof (initial_groups n) as [Hsafe Hrisky]. cbn zeta in Hsafe, Hrisky.
  assert (0 <= n / 2)%Z as Hhalf by (apply Z.div_pos; lia).
  assert (heap w = initial_heap n) as Hheap by apply initialize_heap.
  rewrite Hheap in *. fold w in Hperm.
  split; [done|]. split.
  { rewrite initial_heap_length. by apply even_population. }
  split; [apply initialize_agents|].
  split; [by rewrite initial_heap_length|].
  split; [|split; [|split; [|split]]].
  - rewrite (with_strategy_perm _ _ _ _ Hperm), Hsafe, length_seq. lia.
  - rewrite (with_strategy_perm _ _ _ _ Hperm), Hrisky, length_seq. lia.
  - done.
  - intros order Horder.
    destruct (shuffle_onto (seq 0 (length (initial_heap n))) order Horder) as [g' Hg'].
    exists g'. by rewrite initialize_agents.
  - intros g1 g2 k Hsame Hk. rewrite !initialize_agents in Hsame.
    unfold shuffle in Hsame. rewrite length_seq in Hsame.
    set (len := length (initial_heap n)) in *.
    replace (len - k) with (S (len - 1) - k) by lia.
    apply (shuffle_loop_determined (len - 1) (seq 0 len)); [|rewrite length_seq; lia|done|done].
    apply NoDup_seq.
Qed.

Lemma balanced_initial_population_witness :
  Z.of_nat (length (with_strategy 1 (heap (initialize POPULATION_SIZE (lcg 1)))
                      (agents (initialize POPULATION_SIZE (lcg 1)))))
    = (POPULATION_SIZE / 2)%Z.
Proof.
  destruct (balanced_initial_population POPULATION_SIZE (lcg 1))
    as (_ & _ & _ & _ & H1 & _);
    [ unfold POPULATION_SIZE; lia | reflexivity | ].
  exact H1.
Defined.

(** ** The returned fraction *)

Lemma final_world_well_formed n rounds_n p f r m g :
  well_formed (Z.to_nat (n / 2)) (final_world n rounds_n p f r m g).
Proof. apply well_formed_rounds, well_formed_initialize. Qed.

Lemma half_twice_bound n : (0 < n)%Z -> (Z.of_nat (2 * Z.to_nat (n / 2)) <= n)%Z.
Proof.
  intros Hn. pose proof (Z.mul_div_le n 2 ltac:(lia)).
  assert (0 <= n / 2)%Z by (apply Z.div_pos; lia). lia.
Qed.

Lemma half_negative n : (n < 0)%Z -> Z.to_nat (n / 2) = 0.
Proof.
  intros Hn. assert (n / 2 < 0)%Z by (apply Z.div_lt_upper_bound; lia). lia.
Qed.

Lemma fraction_bounds (c n : Z) :
  (n <> 0)%Z -> (0 <= c)%Z -> (0 < n -> c <= n)%Z -> (n < 0 -> c = 0)%Z ->
  (0 <= inject_Z c / inject_Z n <= 1)%Q.
Proof.
  intros Hn Hc Hpos Hneg.
  destruct (Z.lt_trichotomy n 0) as [Hlt | [Heq | Hgt]]; [|done|].
  - rewrite (Hneg Hlt). unfold Qdiv. rewrite Qmult_0_l. split; [apply Qle_refl|done].
  - assert (0 < inject_Z n)%Q as Hq
      by (change 0%Q with (inject_Z 0); by rewrite <- Zlt_Qlt).
    split.
    + apply Qle_shift_div_l; [done|]. rewrite Qmult_0_l.
      change 0%Q with (inject_Z 0). by rewrite <- Zle_Qle.
    + apply Qle_shift_div_r; [done|]. rewrite Qmult_1_l.
      rewrite <- Zle_Qle. by apply Hpos.
Qed.

Lemma run_fraction n rounds_n p f r m g :
  (n <> 0)%Z ->
  let w := final_world n rounds_n p f r m g in
  let q := (inject_Z (Z.of_nat (length (with_strategy 1 (heap w) (agents w))))
            / inject_Z n)%Q in
  (run_evolutionary_cycle_with n rounds_n p f r m g).1 = Return q
  /\ (0 <= q <= 1)%Q.
Proof.
  intros Hn w q.
  pose proof (final_world_well_formed n rounds_n p f r m g) as Hw. fold w in Hw.
  pose proof (well_formed_agents_length _ _ Hw) as Hags.
  destruct Hw as (Hlen & Hperm & Hbin).
  pose proof (groups_count (heap w) (agents w) Hbin) as Hcount.
  split.
  - unfold run_evolutionary_cycle_with, safe_fraction. fold w. cbn [fst].
    rewrite (proj2 (Z.eqb_neq n 0)) by done.
    by rewrite strategy_sum_count.
  - apply fraction_bounds; [done|lia| |].
    + intros Hpos. pose proof (half_twice_bound n Hpos). lia.
    + intros Hneg. rewrite (half_negative n Hneg) in Hags. lia.
Qed.



(** ** No validation at the boundary *)

Lemma random_range g : (0 <= (random g).1)%Q /\ ((random g).1 < 1)%Q.
Proof.
  unfold random, next_word. cbn [fst].
  set (w := source g (position g)).
  assert (w mod 2 ^ 53 < 2 ^ 53)%N as Hlt by (by apply N.mod_lt).
  assert (Z.pos (2 ^ 53) = Z.of_N (2 ^ 53)) as Hpow by reflexivity.
  unfold Qle, Qlt. cbn [Qnum Qden]. rewrite Hpow.
  generalize dependent (w mod 2 ^ 53)%N. generalize (2 ^ 53)%N.
  intros y x Hlt. lia.
Qed.


Lemma audit_impossible p g : (p <= 0)%Q -> Qltb (random g).1 p = false.
Proof.
  intros Hp. apply Qltb_ge. eapply Qle_trans; [done|apply random_range].
Qed.




(** ** Wealth within a round *)

Lemma reset_wealth_lookup agents h i :
  reset_wealth agents h !! i =
    (if decide (i ∈ agents) then set_wealth 0 else id) <$> h !! i.
Proof.
  revert h. induction agents as [|a agents IH]; intros h; cbn [reset_wealth].
  - case_decide as H; [by apply elem_of_nil in H|]. by destruct (h !! i).
  - rewrite IH, list_lookup_alter.
    destruct (decide (a = i)) as [->|Hai].
    + destruct (decide (i ∈ i :: agents)) as [_|Hn]; [|by destruct Hn; left].
      destruct (h !! i) as [x|]; [|done]. simpl.
      by destruct (decide (i ∈ agents)).
    + destruct (decide (i ∈ agents)) as [Hi|Hi];
        destruct (decide (i ∈ a :: agents)) as [Hi'|Hi']; try done.
      * destruct Hi'. by right.
      * apply elem_of_cons in Hi' as [?|?]; [congruence|done].
Qed.

Lemma reset_wealth_zero agents h a :
  a ∈ agents -> wealth (reset_wealth agents h !!! a) = 0%Q.
Proof.
  intros Ha. rewrite list_lookup_total_alt, reset_wealth_lookup.
  rewrite decide_True by done. by destruct (h !! a).
Qed.

Lemma reset_wealth_forgets agents h1 h2 :
  strategy <$> h1 = strategy <$> h2 ->
  (forall i, i < length h2 -> i ∈ agents) ->
  reset_wealth agents h1 = reset_wealth agents h2.
Proof.
  intros Heq Hcover. apply list_eq. intros i.
  rewrite !reset_wealth_lookup.
  assert (strategy <$> h1 !! i = strategy <$> h2 !! i) as Hi
    by by rewrite <- !list_lookup_fmap, Heq.
  destruct (h2 !! i) as [y|] eqn:Hy.
  - rewrite decide_True by (apply Hcover; by eapply lookup_lt_Some).
    destruct (h1 !! i) as [x|]; [|done]. simpl in *.
    injection Hi as Hi. unfold set_wealth. by rewrite Hi.
  - by destruct (h1 !! i).
Qed.

Lemma play_pair_gen p f r m h g ab : (play_pair p f r m h g ab).2 = advance 1 g.
Proof. destruct ab. rewrite play_pair_unfold. apply random_snd. Qed.

Lemma play_pair_outside p f r m h g a b c :
  c <> a -> c <> b -> (play_pair p f r m h g (a, b)).1 !! c = h !! c.
Proof.
  intros Ha Hb. rewrite play_pair_unfold. cbn zeta. cbn [fst].
  by rewrite !list_lookup_alter_ne.
Qed.

Lemma play_pair_length p f r m h g ab : length (play_pair p f r m h g ab).1 = length h.
Proof.
  rewrite <- (length_fmap strategy), play_pair_strategy. apply length_fmap.
Qed.

Lemma play_pairs_cons p f r m ab pairs h g :
  play_pairs p f r m (ab :: pairs) h g =
    play_pairs p f r m pairs (play_pair p f r m h g ab).1 (advance 1 g).
Proof.
  simpl. rewrite <- (play_pair_gen p f r m h g ab).
  by destruct (play_pair p f r m h g ab).
Qed.

Lemma members_cons a b pairs : members ((a, b) :: pairs) = a :: b :: members pairs.
Proof. done. Qed.

Lemma play_pairs_outside p f r m pairs h g c :
  c ∉ members pairs -> (play_pairs p f r m pairs h g).1 !! c = h !! c.
Proof.
  revert h g. induction pairs as [|[a b] pairs IH]; intros h g Hc; [done|].
  rewrite members_cons in Hc.
  apply not_elem_of_cons in Hc as [Hca Hc].
  apply not_elem_of_cons in Hc as [Hcb Hc].
  rewrite play_pairs_cons, IH by done. by apply play_pair_outside.
Qed.

Lemma lookup_total_same (h1 h2 : list Agent) a : h1 !! a = h2 !! a -> h1 !!! a = h2 !!! a.
Proof. intros H. by rewrite !list_lookup_total_alt, H. Qed.

Lemma play_pairs_member p f r m pairs h g k a b :
  NoDup (members pairs) ->
  pairs !! k = Some (a, b) ->
  a < length h ->
  b < length h ->
  let h' := (play_pairs p f r m pairs h g).1 in
  let pay := pair_payoffs (Qltb (draw k g) p) (strategy (h !!! a)) (strategy (h !!! b))
               f r m in
  wealth (h' !!! a) = (wealth (h !!! a) + pay.1)%Q
  /\ wealth (h' !!! b) = (wealth (h !!! b) + pay.2)%Q.
Proof.
  revert h g k. induction pairs as [|[a0 b0] pairs IH]; intros h g k Hnd Hk Ha Hb; [done|].
  rewrite members_cons in Hnd.
  apply list.NoDup_cons in Hnd as [Ha0 Hnd].
  apply list.NoDup_cons in Hnd as [Hb0 Hnd].
  apply not_elem_of_cons in Ha0 as [Hab0 Ha0].
  cbn zeta. rewrite play_pairs_cons.
  destruct k as [|k]; simpl in Hk.
  - injection Hk as -> ->.
    rewrite (lookup_total_same _ _ a (play_pairs_outside p f r m pairs _ _ a Ha0)).
    rewrite (lookup_total_same _ _ b (play_pairs_outside p f r m pairs _ _ b Hb0)).
    rewrite play_pair_wealth_A, play_pair_wealth_B by done.
    by rewrite <- random_fst.
  - assert (a ∈ members pairs /\ b ∈ members pairs) as [Hina Hinb].
    { unfold members. rewrite !list_elem_of_bind.
      split; exists (a, b); (split; [simpl|by eapply list_elem_of_lookup_2]).
      - by left.
      - right; by left. }
    assert (a <> a0 /\ a <> b0 /\ b <> a0 /\ b <> b0) as (Haa & Hab & Hba & Hbb)
      by (repeat split; intros ->; done).
    pose proof (lookup_total_same _ _ a (play_pair_outside p f r m h g a0 b0 a Haa Hab))
      as Hsame_a.
    pose proof (lookup_total_same _ _ b (play_pair_outside p f r m h g a0 b0 b Hba Hbb))
      as Hsame_b.
    destruct (IH (play_pair p f r m h g (a0, b0)).1 (advance 1 g) k) as [HA HB];
      [done|done|by rewrite play_pair_length|by rewrite play_pair_length|].
    rewrite HA, HB, draw_advance. by rewrite Hsame_a, Hsame_b.
Qed.

Lemma pairing_split l : exists rest, l = members (pairing l) ++ rest.
Proof.
  assert (forall n l, length l <= n -> exists rest, l = members (pairing l) ++ rest) as H.
  { clear l. induction n as [|n IH]; intros l Hl.
    - destruct l; [by exists []|simpl in Hl; lia].
    - destruct l as [|a [|b l]]; [by exists []|by exists [a]|].
      destruct (IH l) as [rest Hrest]; [simpl in Hl; lia|].
      exists rest. rewrite pairing_cons2, members_cons. simpl. by rewrite <- Hrest. }
  by apply (H (length l)).
Qed.

Lemma pairing_NoDup l : NoDup l -> NoDup (members (pairing l)).
Proof.
  intros Hl. destruct (pairing_split l) as [rest Hrest].
  rewrite Hrest in Hl. by apply list.NoDup_app in Hl as [? _].
Qed.

Lemma pairing_elem l a : a ∈ members (pairing l) -> a ∈ l.
Proof.
  intros Ha. destruct (pairing_split l) as [rest Hrest].
  rewrite Hrest. apply elem_of_app. by left.
Qed.

Lemma round_forgets_wealth p f r m (w : world) (h0 : list Agent) :
  (forall i, i < length (heap w) -> i ∈ agents w) ->
  strategy <$> h0 = strategy <$> heap w ->
  round p f r m (mkWorld h0 (agents w) (gen w)) = round p f r m w.
Proof.
  intros Hcover Heq. unfold round. do 2 f_equal.
  unfold reset; simpl. f_equal. by apply reset_wealth_forgets.
Qed.

(** C7: in a world whose list [agents] holds every agent of the store
    once, a round first sets the wealth of every agent to 0; after pairing
    and playing, the wealth of each member of the [k]-th pair is 0 plus the
    payoff of that pair in this round (decided by the [k]-th audit draw
    after the shuffle and by the strategies of the two members); the
    learning step leaves every wealth as it is; and the world after the
    round is the same whatever the wealths were before it. *)
Theorem wealth_is_per_round (p f r : Q) (m : string) (w : world) (h0 : list Agent) :
  agents w ≡ₚ seq 0 (length (heap w)) ->
  strategy <$> h0 = strategy <$> heap w ->
  let w1 := reset w in
  let sh := shuffle (agents w) (gen w) in
  let w2 := play p f r m w1 in
  (forall a, a ∈ agents w -> wealth (heap w1 !!! a) = 0%Q)
  /\ (forall k a b, pairing sh.1 !! k = Some (a, b) ->
        let pay := pair_payoffs (Qltb (draw k sh.2) p)
                     (strategy (heap w !!! a)) (strategy (heap w !!! b)) f r m in
        wealth (heap w2 !!! a) = (0 + pay.1)%Q
        /\ wealth (heap w2 !!! b) = (0 + pay.2)%Q)
  /\ wealth <$> heap (round p f r m w) = wealth <$> heap w2
  /\ round p f r m (mkWorld h0 (agents w) (gen w)) = round p f r m w.
Proof.
  intros Hperm Heq w1 sh w2.
  assert (forall a, a ∈ agents w <-> a < length (heap w)) as Hin.
  { intros a. rewrite Hperm, elem_of_seq. lia. }
  split; [|split; [|split]].
  - intros a Ha. by apply reset_wealth_zero.
  - intros k a b Hk pay.
    assert (sh.1 ≡ₚ agents w) as Hsh by apply shuffle_perm.
    assert (NoDup (members (pairing sh.1))) as Hnd.
    { apply pairing_NoDup. rewrite Hsh, Hperm. apply NoDup_seq. }
    assert (a ∈ agents w /\ b ∈ agents w) as [Ha Hb].
    { rewrite <- !Hsh. split; apply pairing_elem; unfold members;
        rewrite list_elem_of_bind; exists (a, b);
        (split; [simpl|by eapply list_elem_of_lookup_2]);
        [by left | right; by left]. }
    assert (length (heap w1) = length (heap w)) as Hlen by apply reset_wealth_length.
    destruct (play_pairs_member p f r m (pairing sh.1) (heap w1) sh.2 k a b)
      as [HA HB]; [done|done|rewrite Hlen; by apply Hin|rewrite Hlen; by apply Hin|].
    unfold w2. rewrite play_heap.
    change (agents w1) with (agents w). change (gen w1) with (gen w). fold sh.
    rewrite HA, HB.
    rewrite !(lookup_total_proj strategy (heap w1) (heap w))
      by apply reset_wealth_strategy.
    unfold w1, reset; cbn [heap].
    by rewrite !reset_wealth_zero.
  - unfold round. apply learn_wealth.
  - apply round_forgets_wealth; [|done]. intros i Hi. by apply Hin.
Qed.

Lemma wealth_is_per_round_witness :
  round (1 # 2) 100 100 "Partnership"
    (mkWorld [mkAgent 0 7; mkAgent 0 (-3)] (agents two_risky) (gen two_risky))
  = round (1 # 2) 100 100 "Partnership" two_risky.
Proof.
  apply (wealth_is_per_round (1 # 2) 100 100 "Partnership" two_risky
           [mkAgent 0 7; mkAgent 0 (-3)]); reflexivity.
Defined.


(** * Further properties of the engine *)

(** ** The payoff table *)

(** X1: the payoff rule is symmetric in the two members of a pair:
    exchanging the strategies of A and B exchanges the two payoffs, for
    every audit outcome, fine, reputation loss and liability model. *)
Theorem pair_payoffs_symmetric (aud : bool) (sa sb : Z) (f r : Q) (m : string) :
  pair_payoffs aud sb sa f r m
  = ((pair_payoffs aud sa sb f r m).2, (pair_payoffs aud sa sb f r m).1).
Proof.
  unfold pair_payoffs.
  destruct aud, (is_partnership m), (Z.eqb sa 1), (Z.eqb sa 0),
    (Z.eqb sb 1), (Z.eqb sb 0); reflexivity.
Qed.

(** X2: the payoff of each member in closed form, for an integer fine
    and reputation loss (the numbers [main] passes), where the arithmetic of
    lines 69-91 is exact.  A member starts from [PROFIT], pays [COST_SAFE]
    when Safe, and, when the pair is audited, pays [fine_amount +
    reputation_loss] once for being Risky itself and, under "Partnership",
    once more for a Risky partner.  The rational rule used for the cycle
    gives the same numbers. *)
Theorem pair_payoffs_closed_form (aud : bool) (sa sb : Z) (f r : Z) (m : string) :
  Py.pair_payoffs aud sa sb (Py.Int f) (Py.Int r) m
  = Py.Value (Py.Int (payoff_formula_int aud sa sb f r m),
              Py.Int (payoff_formula_int aud sb sa f r m))
  /\ ((pair_payoffs aud sa sb (inject_Z f) (inject_Z r) m).1
      == inject_Z (payoff_formula_int aud sa sb f r m))%Q
  /\ ((pair_payoffs aud sa sb (inject_Z f) (inject_Z r) m).2
      == inject_Z (payoff_formula_int aud sb sa f r m))%Q.
Proof.
  split; [|split].
  - unfold Py.pair_payoffs, Py.fined, payoff_formula_int.
    destruct aud, (is_partnership m), (Z.eqb sa 1), (Z.eqb sa 0),
      (Z.eqb sb 1), (Z.eqb sb 0); cbn; do 2 f_equal; f_equal; lia.
  - unfold pair_payoffs, payoff_formula_int, PROFIT, COST_SAFE.
    destruct aud, (is_partnership m), (Z.eqb sa 1), (Z.eqb sa 0),
      (Z.eqb sb 1), (Z.eqb sb 0); cbn [fst snd andb];
      unfold Qeq; cbn; lia.
  - unfold pair_payoffs, payoff_formula_int, PROFIT, COST_SAFE.
    destruct aud, (is_partnership m), (Z.eqb sa 1), (Z.eqb sa 0),
      (Z.eqb sb 1), (Z.eqb sb 0); cbn [fst snd andb];
      unfold Qeq; cbn; lia.
Qed.

Lemma payoffs_at_most_profit aud sa sb f r m :
  (0 <= f + r)%Q ->
  ((pair_payoffs aud sa sb f r m).1 <= PROFIT)%Q
  /\ ((pair_payoffs aud sa sb f r m).2 <= PROFIT)%Q.
Proof.
  intros Hpen. unfold pair_payoffs, PROFIT, COST_SAFE.
  destruct aud, (is_partnership m), (Z.eqb sa 1), (Z.eqb sa 0),
    (Z.eqb sb 1), (Z.eqb sb 0); cbn [fst snd]; split; lra.
Qed.

(** X3: when the total penalty [fine_amount + reputation_loss] is not
    negative, no member of any pair is paid more under "Partnership" than
    under another liability model, and nobody is ever paid more than
    [PROFIT]. *)
Theorem partnership_never_pays_more (aud : bool) (sa sb : Z) (f r : Q) (m : string) :
  (0 <= f + r)%Q ->
  ((pair_payoffs aud sa sb f r "Partnership").1 <= (pair_payoffs aud sa sb f r m).1)%Q
  /\ ((pair_payoffs aud sa sb f r "Partnership").2 <= (pair_payoffs aud sa sb f r m).2)%Q
  /\ ((pair_payoffs aud sa sb f r m).1 <= PROFIT)%Q
  /\ ((pair_payoffs aud sa sb f r m).2 <= PROFIT)%Q.
Proof.
  intros Hpen.
  split; [|split; [|by apply payoffs_at_most_profit]].
  - unfold pair_payoffs, PROFIT, COST_SAFE.
    change (is_partnership "Partnership") with true.
    destruct aud, (is_partnership m), (Z.eqb sa 1), (Z.eqb sa 0),
      (Z.eqb sb 1), (Z.eqb sb 0); cbn [fst snd]; lra.
  - unfold pair_payoffs, PROFIT, COST_SAFE.
    change (is_partnership "Partnership") with true.
    destruct aud, (is_partnership m), (Z.eqb sa 1), (Z.eqb sa 0),
      (Z.eqb sb 1), (Z.eqb sb 0); cbn [fst snd]; lra.
Qed.

Lemma partnership_never_pays_more_witness :
  ((pair_payoffs true 0 1 100 100 "Partnership").2
   <= (pair_payoffs true 0 1 100 100 "LLC").2)%Q.
Proof.
  destruct (partnership_never_pays_more true 0 1 100 100 "LLC") as (_ & H & _);
    [ discriminate | exact H ].
Defined.

(** ** Pairing lists of any length *)

Lemma half_SS n : S (S n) / 2 = S (n / 2).
Proof.
  replace (S (S n)) with (n + 1 * 2) by lia. rewrite Nat.div_add by lia. lia.
Qed.

Lemma pairing_any_length_aux (l : list nat) :
  length (pairing l) = length l / 2
  /\ members (pairing l) = take (2 * (length l / 2)) l.
Proof.
  assert (forall n (l : list nat), length l <= n ->
            length (pairing l) = length l / 2
            /\ members (pairing l) = take (2 * (length l / 2)) l) as H.
  { clear l. induction n as [|n IH]; intros l Hl.
    - destruct l; [done|simpl in Hl; lia].
    - destruct l as [|a [|b l]]; [done|done|].
      destruct (IH l) as [Hlen Hmem]; [simpl in Hl; lia|].
      rewrite pairing_cons2, members_cons. cbn [length].
      rewrite half_SS. split; [by rewrite Hlen|].
      replace (2 * S (length l / 2)) with (S (S (2 * (length l / 2)))) by lia.
      cbn [take]. by rewrite Hmem. }
  by apply (H (length l) l).
Qed.

(** X4: the consecutive pairs of a list of any length.  There are
    [len(l) // 2] pairs and they hold the first [2 * (len(l) // 2)] members
    of the list in order; so the last agent of a list of odd length is in
    no pair, and a list of fewer than two agents gives no pair at all. *)
Theorem pairing_any_length (l : list nat) :
  length (pairing l) = length l / 2
  /\ members (pairing l) = take (2 * (length l / 2)) l
  /\ l = members (pairing l) ++ drop (2 * (length l / 2)) l.
Proof.
  destruct (pairing_any_length_aux l) as [Hlen Hmem].
  split; [done|]. split; [done|].
  by rewrite Hmem, take_drop.
Qed.

(** ** The words a round reads *)





Lemma evolve_gen agents h g :
  exists j, j <= length agents /\ (evolve agents h g).2 = advance j g.
Proof.
  rewrite evolve_unfold.
  destruct (Qltb _ _); [|destruct (Qltb _ _)].
  - exists (length (with_strategy 1 h agents)).
    split; [apply length_filter|apply switch_loop_gen].
  - exists (length (with_strategy 0 h agents)).
    split; [apply length_filter|apply switch_loop_gen].
  - exists 0. split; [lia|by rewrite advance_0].
Qed.



(** ** A cycle without audits *)

Section NoAudit.
Variables (p f r f' r' : Q) (m m' : string).
Hypothesis no_audit : (p <= 0)%Q.

Lemma play_pair_no_audit h g ab :
  play_pair p f r m h g ab = play_pair p f' r' m' h g ab.
Proof using no_audit.
  destruct ab as [a b]. rewrite !play_pair_unfold. cbn zeta.
  by rewrite audit_impossible.
Qed.

Lemma play_pairs_no_audit pairs h g :
  play_pairs p f r m pairs h g = play_pairs p f' r' m' pairs h g.
Proof using no_audit.
  revert h g. induction pairs as [|ab pairs IH]; intros h g; [done|].
  by rewrite !play_pairs_cons, IH, play_pair_no_audit.
Qed.

Lemma play_no_audit w : play p f r m w = play p f' r' m' w.
Proof using no_audit.
  unfold play. destruct (shuffle _ _). by rewrite play_pairs_no_audit.
Qed.

Lemma rounds_no_audit t w : rounds p f r m t w = rounds p f' r' m' t w.
Proof using no_audit.
  revert w. induction t as [|t IH]; intros w; simpl; [done|].
  unfold round. by rewrite play_no_audit, IH.
Qed.
End NoAudit.

(** X6: with an audit probability of 0 or less no pair is ever audited,
    so the cycle does not depend on the fine, the reputation loss or the
    liability model: any two choices of them give the same result and leave
    the generator in the same state. *)
Theorem no_audit_no_fines (n rounds_n : Z) (p f r f' r' : Q) (m m' : string) (g : rng) :
  (p <= 0)%Q ->
  run_evolutionary_cycle_with n rounds_n p f r m g
  = run_evolutionary_cycle_with n rounds_n p f' r' m' g.
Proof.
  intros Hp. unfold run_evolutionary_cycle_with, final_world.
  by rewrite (rounds_no_audit p f r f' r' m m').
Qed.

Lemma no_audit_no_fines_witness :
  run_evolutionary_cycle_with 4 2 0 30 10 "LLC" (lcg 1)
  = run_evolutionary_cycle_with 4 2 0 100 100 "Partnership" (lcg 1).
Proof.
  exact (no_audit_no_fines 4 2 0 30 10 100 100 "LLC" "Partnership" (lcg 1)
           ltac:(discriminate)).
Defined.

(** ** Means *)

Lemma inject_Z_S n : (inject_Z (Z.of_nat (S n)) == inject_Z (Z.of_nat n) + 1)%Q.
Proof. rewrite Nat2Z.inj_succ, <- Z.add_1_r, inject_Z_plus. reflexivity. Qed.

Lemma Qsum_bounds lo hi l :
  Forall (fun x => lo <= x <= hi)%Q l ->
  (inject_Z (Z.of_nat (length l)) * lo <= Qsum l
   /\ Qsum l <= inject_Z (Z.of_nat (length l)) * hi)%Q.
Proof.
  induction 1 as [|x l [Hlo Hhi] _ [IHlo IHhi]].
  - cbn [length Qsum foldr]. change (inject_Z (Z.of_nat 0)) with 0%Q. split; lra.
  - cbn [length Qsum foldr]. fold (Qsum l).
    rewrite inject_Z_S. split; nra.
Qed.

Lemma mean_bounds lo hi l :
  l <> [] ->
  Forall (fun x => lo <= x <= hi)%Q l ->
  (lo <= mean l <= hi)%Q.
Proof.
  intros Hne Hall. destruct (Qsum_bounds lo hi l Hall) as [Hlo Hhi].
  assert (0 < inject_Z (Z.of_nat (length l)))%Q as Hpos.
  { change 0%Q with (inject_Z 0). rewrite <- Zlt_Qlt.
    destruct l; [done|simpl; lia]. }
  unfold mean. split.
  - apply Qle_shift_div_l; [done|]. by rewrite Qmult_comm.
  - apply Qle_shift_div_r; [done|]. by rewrite Qmult_comm.
Qed.

Lemma avg_wealth_bounds lo hi h group :
  group <> [] ->
  (forall a, a ∈ group -> lo <= wealth (h !!! a) <= hi)%Q ->
  (lo <= avg_wealth h group <= hi)%Q.
Proof.
  intros Hne Hall. destruct group as [|a group]; [done|].
  unfold avg_wealth. apply mean_bounds; [done|].
  unfold wealths. apply Forall_fmap, list.Forall_forall. intros b Hb.
  exact (Hall b Hb).
Qed.

Lemma Qsum_nonneg l : Forall (fun x => 0 <= x)%Q l -> (0 <= Qsum l)%Q.
Proof.
  induction 1 as [|x l Hx _ IH]; [apply Qle_refl|].
  cbn [Qsum foldr]. fold (Qsum l). lra.
Qed.

Lemma avg_wealth_nonneg h group :
  (forall a, a ∈ group -> 0 <= wealth (h !!! a))%Q -> (0 <= avg_wealth h group)%Q.
Proof.
  intros Hall.
  assert (Forall (fun x => 0 <= x)%Q (wealths h group)) as Hw.
  { unfold wealths. apply Forall_fmap, list.Forall_forall. intros b Hb.
    exact (Hall b Hb). }
  destruct group as [|a rest]; [apply Qle_refl|].
  unfold avg_wealth, mean. apply Qle_shift_div_l.
  - change 0%Q with (inject_Z 0). rewrite <- Zlt_Qlt. unfold wealths.
    rewrite length_fmap. simpl. lia.
  - rewrite Qmult_0_l. by apply Qsum_nonneg.
Qed.

(** ** The wealth of every agent after pairing and playing *)

Lemma members_lookup pairs a :
  a ∈ members pairs ->
  exists j x y, pairs !! j = Some (x, y) /\ (a = x \/ a = y).
Proof.
  unfold members. rewrite list_elem_of_bind. intros ([x y] & Ha & Hxy).
  apply list_elem_of_lookup in Hxy as [j Hj].
  exists j, x, y. split; [done|].
  simpl in Ha. apply elem_of_cons in Ha as [->|Ha]; [by left|].
  apply list_elem_of_singleton in Ha as ->. by right.
Qed.

Lemma members_elem pairs j x y :
  pairs !! j = Some (x, y) -> x ∈ members pairs /\ y ∈ members pairs.
Proof.
  intros Hj. unfold members. rewrite !list_elem_of_bind.
  split; exists (x, y); (split; [simpl|by eapply list_elem_of_lookup_2]).
  - by left.
  - right; by left.
Qed.

Lemma well_formed_elem k w a : well_formed k w -> a ∈ agents w <-> a < length (heap w).
Proof. intros (Hlen & Hperm & _). rewrite Hperm, Hlen, elem_of_seq. lia. Qed.

(** After the reset and the play of a round in a well-formed world, the
    wealth of an agent is 0 plus its payoff as member A or as member B of
    one pair, whose partner is another agent of the list. *)
Lemma play_reset_wealth p f r m k w a :
  well_formed k w ->
  a ∈ agents w ->
  exists j b,
    b ∈ agents w /\
    let aud := Qltb (draw j (shuffle (agents w) (gen w)).2) p in
    let sa := strategy (heap w !!! a) in
    let sb := strategy (heap w !!! b) in
    wealth (heap (play p f r m (reset w)) !!! a)
      = (0 + (pair_payoffs aud sa sb f r m).1)%Q
    \/ wealth (heap (play p f r m (reset w)) !!! a)
       = (0 + (pair_payoffs aud sb sa f r m).2)%Q.
Proof.
  intros Hw Ha.
  pose proof (well_formed_agents_length _ _ Hw) as Hags.
  pose proof (fun b => well_formed_elem k w b Hw) as Hin.
  set (sh := shuffle (agents w) (gen w)).
  assert (sh.1 ≡ₚ agents w) as Hsh by apply shuffle_perm.
  assert (members (pairing sh.1) = sh.1) as Hmem.
  { apply (pairing_members k). by rewrite Hsh. }
  assert (NoDup (members (pairing sh.1))) as Hnd.
  { destruct Hw as (_ & Hperm & _). rewrite Hmem, Hsh, Hperm. apply NoDup_seq. }
  assert (a ∈ members (pairing sh.1)) as Hamem by by rewrite Hmem, Hsh.
  destruct (members_lookup _ _ Hamem) as (j & x & y & Hj & Hxy).
  destruct (members_elem _ _ _ _ Hj) as [Hx Hy].
  rewrite Hmem, Hsh in Hx, Hy.
  assert (length (heap (reset w)) = length (heap w)) as Hlen
    by apply reset_wealth_length.
  destruct (play_pairs_member p f r m (pairing sh.1) (heap (reset w)) sh.2 j x y)
    as [HA HB]; [done|done|rewrite Hlen; by apply Hin|rewrite Hlen; by apply Hin|].
  rewrite !(lookup_total_proj strategy (heap (reset w)) (heap w)) in HA, HB
    by apply reset_wealth_strategy.
  unfold reset in HA, HB; cbn [heap] in HA, HB.
  rewrite !reset_wealth_zero in HA, HB by done.
  assert (heap (play p f r m (reset w))
          = (play_pairs p f r m (pairing sh.1) (reset_wealth (agents w) (heap w)) sh.2).1)
    as Hheap by apply play_heap.
  rewrite Hheap.
  destruct Hxy as [-> | ->].
  - exists j, y. split; [done|]. left. exact HA.
  - exists j, x. split; [done|]. right. exact HB.
Qed.

Lemma play_reset_agents p f r m w a :
  a ∈ agents (play p f r m (reset w)) <-> a ∈ agents w.
Proof.
  rewrite play_agents.
  change (agents (reset w)) with (agents w). by rewrite shuffle_perm.
Qed.

Lemma play_reset_strategy p f r m w a :
  strategy (heap (play p f r m (reset w)) !!! a) = strategy (heap w !!! a).
Proof.
  apply lookup_total_proj.
  rewrite play_strategy. apply reset_wealth_strategy.
Qed.

(** ** Populations of one strategy *)

Lemma evolve_uniform agents h g s :
  (s = 0 \/ s = 1)%Z ->
  (forall a, a ∈ agents -> strategy (h !!! a) = s) ->
  (0 <= avg_wealth h agents)%Q ->
  evolve agents h g = (h, g).
Proof.
  intros Hs Hall Hw.
  assert (with_strategy s h agents = agents) as Hsame by by apply with_strategy_all.
  assert (with_strategy (1 - s) h agents = []) as Hnone.
  { apply with_strategy_none. intros a Ha. rewrite (Hall a Ha). lia. }
  rewrite evolve_unfold.
  destruct Hs as [-> | ->];
    change (1 - 0)%Z with 1%Z in *; change (1 - 1)%Z with 0%Z in *;
    rewrite Hsame, Hnone; cbn [avg_wealth switch_loop].
  - destruct (Qltb 0 _); [done|]. by rewrite (proj2 (Qltb_ge _ _)).
  - rewrite (proj2 (Qltb_ge _ _)) by done. by destruct (Qltb _ _).
Qed.

Lemma uniform_round p f r m k w s :
  (s = 0 \/ s = 1)%Z ->
  (forall aud, 0 <= (pair_payoffs aud s s f r m).1
               /\ 0 <= (pair_payoffs aud s s f r m).2)%Q ->
  well_formed k w ->
  all_strategy s w ->
  all_strategy s (round p f r m w).
Proof.
  intros Hs Hpay Hw Hall.
  set (w2 := play p f r m (reset w)).
  assert (all_strategy s w2) as Hall2.
  { intros a Ha. apply play_reset_agents in Ha.
    unfold w2. rewrite play_reset_strategy. by apply Hall. }
  assert (0 <= avg_wealth (heap w2) (agents w2))%Q as Havg.
  { apply avg_wealth_nonneg. intros a Ha. apply play_reset_agents in Ha.
    destruct (play_reset_wealth p f r m k w a Hw Ha) as (j & b & Hb & Hcase).
    cbn zeta in Hcase. rewrite (Hall a Ha), (Hall b Hb) in Hcase.
    destruct (Hpay (Qltb (draw j (shuffle (agents w) (gen w)).2) p)) as [H1 H2].
    fold w2 in Hcase. destruct Hcase as [-> | ->]; lra. }
  intros a Ha. unfold round in *. fold w2 in Ha |- *.
  rewrite learn_agents in Ha. rewrite learn_heap.
  rewrite (evolve_uniform _ _ _ s Hs Hall2 Havg). by apply Hall2.
Qed.

Lemma uniform_rounds p f r m k t w s :
  (s = 0 \/ s = 1)%Z ->
  (forall aud, 0 <= (pair_payoffs aud s s f r m).1
               /\ 0 <= (pair_payoffs aud s s f r m).2)%Q ->
  well_formed k w ->
  all_strategy s w ->
  all_strategy s (rounds p f r m t w).
Proof.
  intros Hs Hpay. revert w. induction t as [|t IH]; intros w Hw Hall; [done|].
  cbn [rounds]. apply IH; [by apply well_formed_round|by eapply uniform_round].
Qed.

Lemma safe_count_all k w : well_formed k w -> all_strategy 1 w -> safe_count w = 2 * k.
Proof.
  intros Hw Hall. unfold safe_count.
  rewrite with_strategy_all by done. by eapply well_formed_agents_length.
Qed.


(** X7: a population in which every agent is Safe stays so.  In a
    well-formed world of [2 * k] agents that are all Safe, every agent is
    still Safe after any number of rounds, for every audit probability,
    fine, reputation loss and liability model: each round pays every agent
    [PROFIT - COST_SAFE], and the empty Risky group has nobody to switch. *)
Theorem all_safe_is_absorbing (p f r : Q) (m : string) (k t : nat) (w : world) :
  well_formed k w ->
  all_strategy 1 w ->
  all_strategy 1 (rounds p f r m t w)
  /\ safe_count (rounds p f r m t w) = 2 * k.
Proof.
  intros Hw Hall.
  assert (all_strategy 1 (rounds p f r m t w)) as Hall'.
  { apply (uniform_rounds p f r m k); [by right| |done|done].
    intros aud. unfold pair_payoffs, PROFIT, COST_SAFE.
    destruct aud; cbn; split; lra. }
  split; [done|].
  apply safe_count_all; [by apply well_formed_rounds|done].
Qed.

Lemma all_safe_is_absorbing_witness :
  safe_count (rounds (1 # 2) 100 100 "Partnership" 3
                (mkWorld [new_Agent 1; new_Agent 1] [0; 1] zero_rng)) = 2 * 1.
Proof.
  destruct (all_safe_is_absorbing (1 # 2) 100 100 "Partnership" 1 3
              (mkWorld [new_Agent 1; new_Agent 1] [0; 1] zero_rng)) as [_ H].
  - unfold well_formed. split; [reflexivity|]. split; [reflexivity|].
    apply Forall_cons; [by right|].
    apply Forall_cons; [by right|apply Forall_nil_2].
  - intros a Ha. cbn [agents] in Ha.
    repeat (apply elem_of_cons in Ha as [-> | Ha]);
      [reflexivity | reflexivity | by apply elem_of_nil in Ha].
  - exact H.
Defined.



(** ** Rounds without audits *)

Lemma switch_loop_strategy s group h g a :
  strategy ((switch_loop s group h g).1 !!! a) = strategy (h !!! a)
  \/ strategy ((switch_loop s group h g).1 !!! a) = s.
Proof.
  revert h g. induction group as [|b group IH]; intros h g; [by left|].
  rewrite switch_loop_cons.
  destruct (IH (alter (decided 0 s g) b h) (advance 1 g)) as [Hsame | Hs]; [|by right].
  rewrite Hsame, list_lookup_total_alter.
  case_decide as Hb; [|by left]. destruct Hb as [-> _].
  unfold decided. destruct (Qltb _ _); [by right|by left].
Qed.

Lemma filter_length_mono (P Q : nat -> Prop) `{!forall a, Decision (P a)}
    `{!forall a, Decision (Q a)} (l : list nat) :
  (forall a, a ∈ l -> P a -> Q a) -> length (filter P l) <= length (filter Q l).
Proof.
  induction l as [|a l IH]; intros Himp; [done|].
  assert (length (filter P l) <= length (filter Q l)) as Hl.
  { apply IH. intros b Hb. apply Himp. by right. }
  rewrite !filter_cons.
  destruct (decide (P a)) as [HP|HP]; destruct (decide (Q a)) as [HQ|HQ]; simpl; try lia.
  destruct HQ. apply Himp; [by left|done].
Qed.

Lemma rounds_S p f r m t w :
  rounds p f r m (S t) w = round p f r m (rounds p f r m t w).
Proof.
  revert w. induction t as [|t IH]; intros w; [done|].
  change (rounds p f r m (S (S t)) w) with (rounds p f r m (S t) (round p f r m w)).
  by rewrite IH.
Qed.

Lemma round_agents p f r m w : agents (round p f r m w) ≡ₚ agents w.
Proof.
  unfold round. rewrite learn_agents, play_agents.
  change (agents (reset w)) with (agents w). apply shuffle_perm.
Qed.

Section NoAuditRounds.
Variables (p f r : Q) (m : string).
Hypothesis no_audit : (p <= 0)%Q.

Lemma no_audit_wealth k w a :
  well_formed k w ->
  a ∈ agents w ->
  (wealth (heap (play p f r m (reset w)) !!! a)
   == if (strategy (heap w !!! a) =? 1)%Z then PROFIT - COST_SAFE else PROFIT)%Q.
Proof using no_audit.
  intros Hw Ha.
  destruct (play_reset_wealth p f r m k w a Hw Ha) as (j & b & Hb & Hcase).
  cbn zeta in Hcase. unfold draw in Hcase.
  rewrite audit_impossible in Hcase by done.
  unfold pair_payoffs in Hcase. cbn [fst snd] in Hcase.
  destruct Hcase as [-> | ->]; apply Qplus_0_l.
Qed.

Lemma no_audit_round_strategy k w a :
  well_formed k w ->
  strategy (heap (round p f r m w) !!! a) = strategy (heap w !!! a)
  \/ strategy (heap (round p f r m w) !!! a) = 0%Z.
Proof using no_audit.
  intros Hw.
  set (w2 := play p f r m (reset w)).
  assert (strategy (heap w2 !!! a) = strategy (heap w !!! a)) as Hstrat
    by apply play_reset_strategy.
  unfold round. fold w2. rewrite learn_heap, <- Hstrat, evolve_unfold.
  set (safe := with_strategy 1 (heap w2) (agents w2)).
  set (risky := with_strategy 0 (heap w2) (agents w2)).
  destruct (Qltb (avg_wealth (heap w2) safe) (avg_wealth (heap w2) risky));
    [apply switch_loop_strategy|].
  destruct (Qltb (avg_wealth (heap w2) risky) (avg_wealth (heap w2) safe)) eqn:Hlt;
    [|by left].
  destruct risky as [|b risky'] eqn:Hrisky; [by left|].
  exfalso. apply Qltb_lt in Hlt. rewrite <- Hrisky in Hlt.
  assert (forall c, c ∈ agents w2 -> c ∈ agents w) as Hin
    by (intros c; apply play_reset_agents).
  assert (avg_wealth (heap w2) risky == PROFIT)%Q as Havg_risky.
  { assert (PROFIT <= avg_wealth (heap w2) risky <= PROFIT)%Q as [? ?];
      [|by apply Qle_antisym].
    apply avg_wealth_bounds; [by rewrite Hrisky|].
    intros c Hc. unfold risky, with_strategy in Hc.
    apply list_elem_of_filter in Hc as [Hc0 Hc].
    unfold w2 in Hc0 |- *. rewrite play_reset_strategy in Hc0.
    rewrite (no_audit_wealth k w c Hw (Hin c Hc)), Hc0. cbn. split; apply Qle_refl. }
  assert (avg_wealth (heap w2) safe <= PROFIT)%Q as Havg_safe.
  { destruct safe as [|c safe'] eqn:Hsafe; [by cbn|]. rewrite <- Hsafe.
    assert (PROFIT - COST_SAFE <= avg_wealth (heap w2) safe <= PROFIT - COST_SAFE)%Q
      as [_ Hle].
    { apply avg_wealth_bounds; [by rewrite Hsafe|].
      intros d Hd. unfold safe, with_strategy in Hd.
      apply list_elem_of_filter in Hd as [Hd1 Hd].
      unfold w2 in Hd1 |- *. rewrite play_reset_strategy in Hd1.
      rewrite (no_audit_wealth k w d Hw (Hin d Hd)), Hd1. cbn. split; apply Qle_refl. }
    eapply Qle_trans; [exact Hle|]. by cbn. }
  rewrite Havg_risky in Hlt. by apply Qlt_not_le in Hlt.
Qed.

Lemma no_audit_round_count k w :
  well_formed k w -> safe_count (round p f r m w) <= safe_count w.
Proof using no_audit.
  intros Hw. unfold safe_count.
  rewrite (Permutation_length (with_strategy_perm 1 _ _ _ (round_agents p f r m w))).
  apply filter_length_mono. intros a _ Hsafe.
  destruct (no_audit_round_strategy k w a Hw) as [<- | H0]; [done|congruence].
Qed.

Lemma no_audit_rounds_count k t w :
  well_formed k w -> safe_count (rounds p f r m t w) <= safe_count w.
Proof using no_audit.
  intros Hw. induction t as [|t IH]; [done|].
  rewrite rounds_S.
  etrans; [apply (no_audit_round_count k); by apply well_formed_rounds|done].
Qed.
End NoAuditRounds.

Lemma safe_count_initialize n g : safe_count (initialize n g) = Z.to_nat (n / 2).
Proof.
  unfold safe_count.
  pose proof (well_formed_initialize n g) as (_ & Hperm & _).
  rewrite (Permutation_length (with_strategy_perm 1 _ _ _ Hperm)), initialize_heap.
  destruct (initial_groups n) as [Hsafe _]. cbn zeta in Hsafe.
  by rewrite Hsafe, length_seq.
Qed.

Lemma half_fraction (c n : Z) :
  (0 < n)%Z -> (2 * c <= n)%Z -> (inject_Z c / inject_Z n <= 1 # 2)%Q.
Proof.
  intros Hn Hc.
  assert (0 < inject_Z n)%Q as Hq
    by (change 0%Q with (inject_Z 0); by rewrite <- Zlt_Qlt).
  apply Qle_shift_div_r; [done|].
  rewrite Zle_Qle, inject_Z_mult in Hc. change (inject_Z 2) with 2%Q in Hc. lra.
Qed.

(** X9: with an audit probability of 0 or less the number of Safe agents
    never grows.  In every round of a cycle it is at most what it was before
    the round, it is never above the [n // 2] of the initial population, and
    the cycle of a positive population size returns at most 1/2. *)
Theorem no_audit_safe_never_grows (n rounds_n : Z) (p f r : Q) (m : string) (g : rng) :
  (p <= 0)%Q ->
  (0 < n)%Z ->
  (forall t, safe_count (rounds p f r m (S t) (initialize n g))
             <= safe_count (rounds p f r m t (initialize n g)))
  /\ (forall t, safe_count (rounds p f r m t (initialize n g)) <= Z.to_nat (n / 2))
  /\ exists q, (run_evolutionary_cycle_with n rounds_n p f r m g).1 = Return q
              /\ (q <= 1 # 2)%Q.
Proof.
  intros Hp Hn.
  pose proof (well_formed_initialize n g) as Hinit.
  assert (forall t, safe_count (rounds p f r m t (initialize n g)) <= Z.to_nat (n / 2))
    as Hbound.
  { intros t. rewrite <- (safe_count_initialize n g).
    by apply (no_audit_rounds_count p f r m Hp (Z.to_nat (n / 2))). }
  split; [|split; [done|]].
  - intros t. rewrite rounds_S.
    apply (no_audit_round_count p f r m Hp (Z.to_nat (n / 2))).
    by apply well_formed_rounds.
  - destruct (run_fraction n rounds_n p f r m g) as [Hrun _]; [lia|].
    eexists. split; [exact Hrun|].
    apply half_fraction; [done|].
    specialize (Hbound (Z.to_nat rounds_n)). unfold safe_count in Hbound.
    unfold final_world.
    pose proof (Z.mul_div_le n 2 ltac:(lia)).
    assert (0 <= n / 2)%Z by (apply Z.div_pos; lia). lia.
Qed.

Lemma no_audit_safe_never_grows_witness :
  exists q, (run_evolutionary_cycle_with POPULATION_SIZE ROUNDS_PER_SIM 0
               PARTNERSHIP_FINE PARTNERSHIP_REPUTATION_LOSS "Partnership" (lcg 1)).1
            = Return q /\ (q <= 1 # 2)%Q.
Proof.
  destruct (no_audit_safe_never_grows POPULATION_SIZE ROUNDS_PER_SIM 0
              PARTNERSHIP_FINE PARTNERSHIP_REPUTATION_LOSS "Partnership" (lcg 1))
    as (_ & _ & H); [discriminate | reflexivity | exact H].
Defined.

(** ** Population sizes that are odd or negative *)



(** ** The sweep of [main] *)

Lemma repeat_cycle_unit cycle :
  (forall g, exists q, (cycle g).1 = Return q /\ (0 <= q <= 1)%Q) ->
  forall k g, exists qs,
    (repeat_cycle k cycle g).1 = Return qs
    /\ length qs = k
    /\ Forall (fun q => 0 <= q <= 1)%Q qs.
Proof.
  intros Hcycle. induction k as [|k IH]; intros g.
  - exists []. by repeat split.
  - cbn [repeat_cycle].
    destruct (Hcycle g) as (q & Hq & Hunit).
    destruct (cycle g) as [res g']. cbn [fst] in Hq. subst res.
    destruct (IH g') as (qs & Hqs & Hlen & Hall).
    destruct (repeat_cycle k cycle g') as [res g'']. cbn [fst] in Hqs. subst res.
    exists (q :: qs). cbn [fst length]. split; [done|]. split; [by rewrite Hlen|].
    by apply Forall_cons.
Qed.

Lemma llc_run_unit p g :
  exists q, (llc_run p g).1 = Return q /\ (0 <= q <= 1)%Q.
Proof.
  unfold llc_run, run_evolutionary_cycle. eexists.
  apply run_fraction. by unfold POPULATION_SIZE.
Qed.

Lemma partnership_run_unit p g :
  exists q, (partnership_run p g).1 = Return q /\ (0 <= q <= 1)%Q.
Proof.
  unfold partnership_run, run_evolutionary_cycle. eexists.
  apply run_fraction. by unfold POPULATION_SIZE.
Qed.

Lemma mean_of_runs qs :
  length qs = Z.to_nat SIMULATION_RUNS ->
  Forall (fun q => 0 <= q <= 1)%Q qs ->
  (0 <= mean qs <= 1)%Q.
Proof.
  intros Hlen Hall. apply mean_bounds; [|done].
  intros ->. by cbn in Hlen.
Qed.

Lemma sweep_point_unit p g :
  exists a b, (sweep_point p g).1 = Return (a, b)
              /\ (0 <= a <= 1)%Q /\ (0 <= b <= 1)%Q.
Proof.
  unfold sweep_point.
  destruct (repeat_cycle_unit (llc_run p) (llc_run_unit p)
              (Z.to_nat SIMULATION_RUNS) g) as (llc & Hllc & Hlen1 & Hall1).
  destruct (repeat_cycle (Z.to_nat SIMULATION_RUNS) (llc_run p) g) as [res g'].
  cbn [fst] in Hllc. subst res.
  destruct (repeat_cycle_unit (partnership_run p) (partnership_run_unit p)
              (Z.to_nat SIMULATION_RUNS) g') as (par & Hpar & Hlen2 & Hall2).
  destruct (repeat_cycle (Z.to_nat SIMULATION_RUNS) (partnership_run p) g')
    as [res g''].
  cbn [fst] in Hpar. subst res.
  exists (mean llc), (mean par). cbn [fst].
  split; [done|]. split; by apply mean_of_runs.
Qed.

Lemma sweep_unit ps acc_llc acc_par g :
  Forall (fun q => 0 <= q <= 1)%Q acc_llc ->
  Forall (fun q => 0 <= q <= 1)%Q acc_par ->
  exists llc par,
    (sweep ps acc_llc acc_par g).1 = Return (llc, par)
    /\ length llc = length acc_llc + length ps
    /\ length par = length acc_par + length ps
    /\ Forall (fun q => 0 <= q <= 1)%Q llc
    /\ Forall (fun q => 0 <= q <= 1)%Q par.
Proof.
  revert acc_llc acc_par g.
  induction ps as [|p ps IH]; intros acc_llc acc_par g H1 H2.
  - exists acc_llc, acc_par. cbn [sweep fst length].
    by rewrite !Nat.add_0_r.
  - cbn [sweep].
    destruct (sweep_point_unit p g) as (a & b & Hpoint & Ha & Hb).
    destruct (sweep_point p g) as [res g']. cbn [fst] in Hpoint. subst res.
    destruct (IH (acc_llc ++ [a]) (acc_par ++ [b]) g')
      as (llc & par & Hsweep & Hlen1 & Hlen2 & Hall1 & Hall2).
    { apply Forall_app. split; [done|]. by apply Forall_cons. }
    { apply Forall_app. split; [done|]. by apply Forall_cons. }
    exists llc, par. rewrite length_app in Hlen1, Hlen2. cbn [length] in *.
    repeat split; try done; lia.
Qed.

(** X11: the numbers of [main].  The grid has 20 audit probabilities, all
    in [0, 1]; the sweep raises no exception and returns 20 averages for the
    LLC runs and 20 for the Partnership runs, each of them in [0, 1]. *)
Theorem main_sweep (g : rng) :
  length audit_probabilities = 20
  /\ Forall (fun p => 0 <= p <= 1)%Q audit_probabilities
  /\ exists results_llc results_partnership,
       (main_results g).1 = Return (results_llc, results_partnership)
       /\ length results_llc = 20
       /\ length results_partnership = 20
       /\ Forall (fun q => 0 <= q <= 1)%Q results_llc
       /\ Forall (fun q => 0 <= q <= 1)%Q results_partnership.
Proof.
  split; [reflexivity|]. split.
  - unfold audit_probabilities, linspace. cbn [seq fmap list_fmap].
    repeat (apply Forall_cons; [split; vm_compute; discriminate|]).
    apply Forall_nil_2.
  - destruct (sweep_unit audit_probabilities [] [] g)
      as (llc & par & Hsweep & Hlen1 & Hlen2 & Hall1 & Hall2);
      [apply Forall_nil_2 | apply Forall_nil_2 |].
    exists llc, par. unfold main_results. by repeat split.
Qed.

(** ** Rounds in which every pair is audited, under individual liability *)

Section FullAudit.
Variables (p f r : Q) (m : string).
Hypothesis full_audit : (1 <= p)%Q.
Hypothesis individual : is_partnership m = false.
Hypothesis deterrent : (COST_SAFE <= f + r)%Q.




End FullAudit.




(** ** The range of wealth *)

Lemma payoffs_range aud sa sb f r m :
  (0 <= f + r)%Q ->
  (PROFIT - COST_SAFE - 2 * (f + r) <= (pair_payoffs aud sa sb f r m).1 <= PROFIT)%Q
  /\ (PROFIT - COST_SAFE - 2 * (f + r) <= (pair_payoffs aud sa sb f r m).2 <= PROFIT)%Q.
Proof.
  intros Hpen. unfold pair_payoffs, PROFIT, COST_SAFE.
  destruct aud, (is_partnership m), (Z.eqb sa 1), (Z.eqb sa 0),
    (Z.eqb sb 1), (Z.eqb sb 0); cbn [fst snd]; repeat split; lra.
Qed.

Lemma wealth_range_rational (p f r : Q) (m : string) (k : nat) (w : world) (a : nat) :
  (0 <= f + r)%Q ->
  well_formed k w ->
  a ∈ agents w ->
  (PROFIT - COST_SAFE - 2 * (f + r)
   <= wealth (heap (round p f r m w) !!! a) <= PROFIT)%Q.
Proof.
  intros Hpen Hw Ha.
  assert (wealth (heap (round p f r m w) !!! a)
          = wealth (heap (play p f r m (reset w)) !!! a)) as ->.
  { apply lookup_total_proj. unfold round. apply learn_wealth. }
  destruct (play_reset_wealth p f r m k w a Hw Ha) as (j & b & Hb & Hcase).
  cbn zeta in Hcase.
  destruct Hcase as [-> | ->].
  - destruct (payoffs_range (Qltb (draw j (shuffle (agents w) (gen w)).2) p)
                (strategy (heap w !!! a)) (strategy (heap w !!! b)) f r m Hpen)
      as [[? ?] _].
    split; lra.
  - destruct (payoffs_range (Qltb (draw j (shuffle (agents w) (gen w)).2) p)
                (strategy (heap w !!! b)) (strategy (heap w !!! a)) f r m Hpen)
      as [_ [? ?]].
    split; lra.
Qed.

(** X13: the wealth an agent holds after a round, for an integer fine and
    reputation loss (the numbers [main] passes), where payoffs are exact.
    When their sum is not negative, every agent of a well-formed world ends
    a round with a wealth between [PROFIT - COST_SAFE - 2 * (fine_amount +
    reputation_loss)] and [PROFIT]; the lower end can be negative. *)
Theorem wealth_range (p : Q) (fine rep : Z) (m : string) (k : nat) (w : world) (a : nat) :
  (0 <= fine + rep)%Z ->
  well_formed k w ->
  a ∈ agents w ->
  (PROFIT - COST_SAFE - 2 * inject_Z (fine + rep)
   <= wealth (heap (round p (inject_Z fine) (inject_Z rep) m w) !!! a)
   <= PROFIT)%Q.
Proof.
  intros Hpen Hw Ha. rewrite inject_Z_plus.
  apply (wealth_range_rational p (inject_Z fine) (inject_Z rep) m k); [|done|done].
  rewrite <- inject_Z_plus. change 0%Q with (inject_Z 0). by rewrite <- Zle_Qle.
Qed.

Lemma wealth_range_witness :
  (PROFIT - COST_SAFE - 2 * inject_Z (100 + 100)
   <= wealth (heap (round (1 # 2) (inject_Z 100) (inject_Z 100) "Partnership"
                      two_risky) !!! 0%nat)
   <= PROFIT)%Q.
Proof.
  apply (wealth_range (1 # 2) 100 100 "Partnership" 1 two_risky 0).
  - lia.
  - unfold well_formed. split; [reflexivity|]. split; [reflexivity|].
    apply Forall_cons; [by left|].
    apply Forall_cons; [by left|apply Forall_nil_2].
  - apply list_elem_of_here.
Defined.
